(** * Fourier prefetcher: a shallow embedding of prefetcher/fourier

    The repository holds the design of the prefetcher (DESIGN.md: the entry
    layout, the tracker table, the per-access algorithm
    [prefetcher_cache_operate] and the Goertzel routine) and the header
    fourier.h.  Every definition below names the step or the section it is
    taken from, and says so where the design is silent and the behaviour is
    taken from the specification instead.

    Integers are [Z] with the wrap-around of their C++ type written out.
    The Goertzel routine works on [float]: it is embedded on the binary32
    numbers of the Standard Library's [SpecFloat], with a rounding to
    nearest, ties to even, after every operation. *)

From Stdlib Require Import ZArith QArith Lia SpecFloat.
From stdpp Require Import gmap list.

Local Open Scope Z_scope.

(** ** Machine integers *)

Definition wrap_u8 (z : Z) : Z := z mod 2 ^ 8.
Definition wrap_u64 (z : Z) : Z := z mod 2 ^ 64.
(** conversion to [int16_t]: two's complement *)
Definition wrap_i16 (z : Z) : Z := (z + 2 ^ 15) mod 2 ^ 16 - 2 ^ 15.

Definition is_u64 (z : Z) : Prop := 0 <= z < 2 ^ 64.

(** ** Constants *)

(** DESIGN.md, entry layout: BUF_SIZE=24, MAX_PERIOD=12; fourier.h:
    DELTA_BUFF_SIZE = 24, FREQ_BINS_SIZE = 6. *)
Definition BUF_SIZE : Z := 24.
Definition MAX_PERIOD : Z := 12.
(** DESIGN.md, IP Tracker Table: max 256 entries. *)
Definition TABLE_SIZE : Z := 256.
(** DESIGN.md, step 7: STABILITY_REQUIRED (3). *)
Definition STABILITY_REQUIRED : Z := 3.
(** DESIGN.md, step 5 and step 8: the counter saturates at 7, a prefetch
    needs 3, the nearer level needs 5. *)
Definition CONFIDENCE_MAX : Z := 7.
Definition CONFIDENCE_ISSUE : Z := 3.
Definition CONFIDENCE_NEAR : Z := 5.
(** DESIGN.md, step 7: every 4th access. *)
Definition ANALYSIS_INTERVAL : Z := 4.

(** The constants of the host simulator and of fourier_parameters.h, which
    the repository names but does not define. *)
Record config := {
  BLOCK_SIZE : Z;
  LOG2_BLOCK_SIZE : Z;
  LOG2_PAGE_SIZE : Z;
  POWER_THRESHOLD : Q
}.

(** ** The per-IP entry (DESIGN.md, [fourier_entry]) *)

Record fourier_entry := {
  ip : Z;                 (* uint64_t: the (hashed) instruction pointer *)
  last_cl_addr : Z;       (* uint64_t *)
  delta_buf : list Z;     (* int16_t [BUF_SIZE] *)
  buf_head : Z;           (* uint8_t: write pointer *)
  buf_count : Z;          (* uint8_t: valid entries, up to BUF_SIZE *)
  pattern : list Z;       (* int16_t [MAX_PERIOD] *)
  period : Z;             (* uint8_t: 0 = none *)
  phase : Z;              (* uint8_t *)
  confidence : Z;         (* uint8_t: saturating, 0-7 *)
  stability : Z;          (* uint8_t *)
  last_prediction : Z;    (* int16_t *)
  has_prediction : bool;
  accesses : Z            (* see [count_access] *)
}.

(** Modelled from the spec: the state of a fresh entry.  DESIGN.md step 2
    says [allocate entry] and gives no initial values; the spec (4.1) has a
    zero-initialized entry: empty buffers, period 0, confidence 0.  The
    allocating access is the entry's first access and leaves its line
    address behind. *)
Definition new_entry (key cl : Z) : fourier_entry :=
  {| ip := key; last_cl_addr := cl;
     delta_buf := replicate (Z.to_nat BUF_SIZE) 0; buf_head := 0; buf_count := 0;
     pattern := replicate (Z.to_nat MAX_PERIOD) 0; period := 0; phase := 0;
     confidence := 0; stability := 0;
     last_prediction := 0; has_prediction := false;
     accesses := 1 |}.

(** *** Field updates *)

Definition set_last_cl_addr (cl : Z) (e : fourier_entry) : fourier_entry :=
  {| ip := ip e; last_cl_addr := cl;
     delta_buf := delta_buf e; buf_head := buf_head e; buf_count := buf_count e;
     pattern := pattern e; period := period e; phase := phase e;
     confidence := confidence e; stability := stability e;
     last_prediction := last_prediction e; has_prediction := has_prediction e;
     accesses := accesses e |}.

Definition set_buffer (buf : list Z) (head count : Z) (e : fourier_entry) : fourier_entry :=
  {| ip := ip e; last_cl_addr := last_cl_addr e;
     delta_buf := buf; buf_head := head; buf_count := count;
     pattern := pattern e; period := period e; phase := phase e;
     confidence := confidence e; stability := stability e;
     last_prediction := last_prediction e; has_prediction := has_prediction e;
     accesses := accesses e |}.

Definition set_confidence (c : Z) (e : fourier_entry) : fourier_entry :=
  {| ip := ip e; last_cl_addr := last_cl_addr e;
     delta_buf := delta_buf e; buf_head := buf_head e; buf_count := buf_count e;
     pattern := pattern e; period := period e; phase := phase e;
     confidence := c; stability := stability e;
     last_prediction := last_prediction e; has_prediction := has_prediction e;
     accesses := accesses e |}.

Definition set_period (p s : Z) (e : fourier_entry) : fourier_entry :=
  {| ip := ip e; last_cl_addr := last_cl_addr e;
     delta_buf := delta_buf e; buf_head := buf_head e; buf_count := buf_count e;
     pattern := pattern e; period := p; phase := phase e;
     confidence := confidence e; stability := s;
     last_prediction := last_prediction e; has_prediction := has_prediction e;
     accesses := accesses e |}.

Definition set_pattern (pat : list Z) (ph : Z) (e : fourier_entry) : fourier_entry :=
  {| ip := ip e; last_cl_addr := last_cl_addr e;
     delta_buf := delta_buf e; buf_head := buf_head e; buf_count := buf_count e;
     pattern := pat; period := period e; phase := ph;
     confidence := confidence e; stability := stability e;
     last_prediction := last_prediction e; has_prediction := has_prediction e;
     accesses := accesses e |}.

Definition set_prediction (d : Z) (b : bool) (e : fourier_entry) : fourier_entry :=
  {| ip := ip e; last_cl_addr := last_cl_addr e;
     delta_buf := delta_buf e; buf_head := buf_head e; buf_count := buf_count e;
     pattern := pattern e; period := period e; phase := phase e;
     confidence := confidence e; stability := stability e;
     last_prediction := d; has_prediction := b;
     accesses := accesses e |}.

Definition set_accesses (n : Z) (e : fourier_entry) : fourier_entry :=
  {| ip := ip e; last_cl_addr := last_cl_addr e;
     delta_buf := delta_buf e; buf_head := buf_head e; buf_count := buf_count e;
     pattern := pattern e; period := period e; phase := phase e;
     confidence := confidence e; stability := stability e;
     last_prediction := last_prediction e; has_prediction := has_prediction e;
     accesses := n |}.

(** ** The circular delta buffer (DESIGN.md, step 4) *)

Definition buf_at (e : fourier_entry) (i : Z) : Z :=
  default 0 (delta_buf e !! Z.to_nat i).

(** Append a delta: write at the head, advance the head, count up to
    BUF_SIZE. *)
Definition push_delta (d : Z) (e : fourier_entry) : fourier_entry :=
  set_buffer (<[Z.to_nat (buf_head e) := d]> (delta_buf e))
             ((buf_head e + 1) mod BUF_SIZE)
             (Z.min (buf_count e + 1) BUF_SIZE) e.

(** The [k] most recent deltas, oldest first: slots
    [(head + BUF_SIZE - k + i) % BUF_SIZE] for [i < k].  For [k = BUF_SIZE]
    this is the order [buf[(head + i) % N]] in which [goertzel_power] reads
    the buffer. *)
Definition last_k (e : fourier_entry) (k : Z) : list Z :=
  (fun i => buf_at e ((buf_head e + BUF_SIZE - k + i) mod BUF_SIZE)) <$> seqZ 0 k.

(** Modelled from the spec: the cadence counter of the spectral analysis.
    DESIGN.md step 7 runs the analysis on [every 4th access] of an entry and
    declares no field that counts them; the counter here counts every access
    of the entry, the allocating one included, modulo the interval, and runs
    on whatever happens to the period. *)
Definition count_access (e : fourier_entry) : fourier_entry :=
  set_accesses ((accesses e + 1) mod ANALYSIS_INTERVAL) e.

Definition analysis_due (e : fourier_entry) : bool :=
  (accesses e =? 0) && (BUF_SIZE <=? buf_count e).

(** ** Step 6: the stride fast path *)

Definition identical_nonzero (l : list Z) : bool :=
  match l with
  | [a; b; c; d] => (a =? d) && (b =? d) && (c =? d) && negb (d =? 0)
  | _ => false
  end.

(** The last 4 deltas in the buffer are identical and nonzero. *)
Definition fast_path_ready (e : fourier_entry) : bool :=
  (4 <=? buf_count e) && identical_nonzero (last_k e 4).

(** ** The Goertzel routine (DESIGN.md, Goertzel Algorithm) *)

Definition candidate_periods : list Z := [2; 3; 4; 6; 8; 12].

(** *** [float]: IEEE 754 binary32 *)

Definition f32_add : spec_float -> spec_float -> spec_float := SFadd 24 128.
Definition f32_sub : spec_float -> spec_float -> spec_float := SFsub 24 128.
Definition f32_mul : spec_float -> spec_float -> spec_float := SFmul 24 128.

(** The conversion of an integer to [float]. *)
Definition f32_of_Z (z : Z) : spec_float := binary_normalize 24 128 z 0 false.

(** A decimal literal [num/den]: a [double], the nearest one, which the
    call of [goertzel_power] converts to [float]. *)
Definition f32_of_decimal (num den : Z) : spec_float :=
  match SFdiv 53 1024 (binary_normalize 53 1024 num 0 false)
                      (binary_normalize 53 1024 den 0 false) with
  | S754_finite s m e => binary_normalize 24 128 (cond_Zopp s (Zpos m)) e s
  | x => x
  end.

(** The value of a finite [float] as a rational.  The sums of 24 samples of
    16 bits and their products stay far below the largest [float], so the
    infinities and NaN do not come up; they are given the value 0 here. *)
Definition Q_of_f32 (x : spec_float) : Q :=
  match x with
  | S754_finite s m e =>
      match e with
      | Zneg p => Qmake (cond_Zopp s (Zpos m)) (2 ^ p)
      | _ => inject_Z (cond_Zopp s (Zpos m) * 2 ^ e)
      end
  | _ => Qmake 0 1
  end.

(** The coefficient table: [{-2.0, -1.0, 0.0, 1.0, 1.4142, 1.7321}]. *)
Definition goertzel_coeff (P : Z) : spec_float :=
  match P with
  | 2 => f32_of_Z (-2)
  | 3 => f32_of_Z (-1)
  | 4 => f32_of_Z 0
  | 6 => f32_of_Z 1
  | 8 => f32_of_decimal 14142 10000
  | 12 => f32_of_decimal 17321 10000
  | _ => f32_of_Z 0
  end.

(** One round of the loop: [s0 = buf[..] + coeff * s1 - s2; s2 = s1;
    s1 = s0], with the state [(s1, s2)]. *)
Definition goertzel_step (coeff : spec_float) (s : spec_float * spec_float) (x : Z)
    : spec_float * spec_float :=
  (f32_sub (f32_add (f32_of_Z x) (f32_mul coeff (fst s))) (snd s), fst s).

(** [samples] are the buffer slots [buf[(head + i) % N]], i = 0 .. N-1;
    the result is [s1*s1 + s2*s2 - coeff*s1*s2]. *)
Definition goertzel_power (samples : list Z) (coeff : spec_float) : spec_float :=
  let s := fold_left (goertzel_step coeff) samples (f32_of_Z 0, f32_of_Z 0) in
  f32_sub (f32_add (f32_mul (fst s) (fst s)) (f32_mul (snd s) (snd s)))
          (f32_mul (f32_mul coeff (fst s)) (snd s)).

(** Modelled from the spec: the argmax of step 7.  DESIGN.md says only
    [best_period = P with highest power]; the spec (4.3) has a strict argmax
    over the six candidates in which a tie goes to the smaller period: the
    candidates are visited in increasing order and the best so far is
    replaced only by a strictly greater power. *)
Definition better (pw : Z -> Q) (best : Z * Q) (P : Z) : Z * Q :=
  if Qle_bool (pw P) (snd best) then best else (P, pw P).

Definition detect_with (pw : Z -> Q) : Z * Q :=
  fold_left (better pw) [3; 4; 6; 8; 12] (2, pw 2).

(** The powers of the six candidates over 24 samples, oldest first, as
    the rationals that the [float] results are. *)
Definition window_power (samples : list Z) (P : Z) : Q :=
  Q_of_f32 (goertzel_power samples (goertzel_coeff P)).

Definition detect (e : fourier_entry) : Z * Q :=
  detect_with (window_power (last_k e BUF_SIZE)).

Arguments goertzel_power : simpl never.
Arguments window_power : simpl never.
Arguments detect_with : simpl never.
Arguments detect : simpl never.
Arguments last_k : simpl never.

(** ** Step 5: the confidence check *)

Definition confidence_check (actual_delta : Z) (e : fourier_entry) : fourier_entry :=
  if has_prediction e then
    let c := if actual_delta =? last_prediction e
             then Z.min (confidence e + 1) CONFIDENCE_MAX
             else Z.max (confidence e - 2) 0 in
    let e1 := set_confidence c e in
    if c =? 0 then set_period 0 0 e1 else e1
  else e.

(** ** Step 7: the Fourier analysis *)

(** [Extract last P deltas from buffer into pattern[], phase = 0]: the
    first [P] slots of the pattern are overwritten. *)
Definition extract_pattern (e : fourier_entry) : fourier_entry :=
  set_pattern (last_k e (period e) ++ drop (Z.to_nat (period e)) (pattern e)) 0 e.

Definition fourier_analysis (cfg : config) (e : fourier_entry) : fourier_entry :=
  let best := detect e in
  if Qle_bool (snd best) (POWER_THRESHOLD cfg) then e
  else
    let e1 := if fst best =? period e
              then set_period (period e) (wrap_u8 (stability e + 1)) e
              else set_period (fst best) 1 e in
    if STABILITY_REQUIRED <=? stability e1 then extract_pattern e1 else e1.

Arguments fourier_analysis : simpl never.

(** The outcome of code that can run into undefined behaviour. *)
Inductive outcome (A : Type) : Type :=
| Ok (a : A)
| ModuloByZero.
Arguments Ok {A} a.
Arguments ModuloByZero {A}.

Definition pattern_at (e : fourier_entry) (i : Z) : Z :=
  default 0 (pattern e !! Z.to_nat i).

(** The last line of step 7, [predicted_delta = pattern[phase % period]]:
    the remainder is an integer remainder of C++, which has no value for a
    zero divisor. *)
Definition replay_delta (e : fourier_entry) : outcome Z :=
  if period e =? 0 then ModuloByZero
  else Ok (pattern_at e (phase e mod period e)).

(** ** Step 8: the prefetch *)

Record request := {
  pf_addr : Z;               (* uint64_t *)
  fill_this_level : bool     (* true: L1, false: L2 *)
}.

(** [period is locked]: a period is set (0 = none). *)
Definition period_locked (e : fourier_entry) : bool := negb (period e =? 0).

(** Modelled from the spec: what step 8 predicts from on a round on which
    step 7 did not run.  The spec (4.7, step 1) takes the delta from the
    pattern if [period != 0], else there is none. *)
Definition locked_delta (e : fourier_entry) : option Z :=
  if period_locked e then Some (pattern_at e (phase e mod period e)) else None.

(** [Advance phase]: the phase is a [uint8_t] and is reduced where it is
    read. *)
Definition advance_phase (e : fourier_entry) : fourier_entry :=
  set_pattern (pattern e) (wrap_u8 (phase e + 1)) e.

Definition same_page (cfg : config) (a b : Z) : bool :=
  Z.shiftr a (LOG2_PAGE_SIZE cfg) =? Z.shiftr b (LOG2_PAGE_SIZE cfg).

(** [predicted] is the delta of the fast path or of the locked period, if
    there is one; [mshr] is [get_mshr_occupancy_ratio()].  Step 8 is all
    behind its guards: where one of them fails nothing is done, and the
    entry stays as it is. *)
Definition prefetch (cfg : config) (predicted : option Z) (addr : Z) (mshr : Q)
    (e : fourier_entry) : fourier_entry * option request :=
  match predicted with
  | Some d =>
      if CONFIDENCE_ISSUE <=? confidence e then
        let target := wrap_u64 (addr + d * BLOCK_SIZE cfg) in
        if same_page cfg target addr then
          let l1 := (CONFIDENCE_NEAR <=? confidence e)
                    && negb (Qle_bool (1 # 2) mshr) in
          (advance_phase (set_prediction d true e),
           Some {| pf_addr := target; fill_this_level := l1 |})
        else (e, None)
      else (e, None)
  | None => (e, None)
  end.

(** ** Steps 4 to 8 on the entry of a returning IP *)

Definition entry_operate (cfg : config) (delta addr : Z) (mshr : Q)
    (e : fourier_entry) : outcome (fourier_entry * option request) :=
  let e1 := count_access (push_delta delta e) in          (* step 4 *)
  let e2 := confidence_check delta e1 in                  (* step 5 *)
  if fast_path_ready e2 then                              (* step 6 *)
    Ok (prefetch cfg (Some delta) addr mshr e2)
  else if analysis_due e2 then                            (* step 7 *)
    let e3 := fourier_analysis cfg e2 in
    match replay_delta e3 with
    | ModuloByZero => ModuloByZero
    | Ok d => Ok (prefetch cfg (Some d) addr mshr e3)
    end
  else Ok (prefetch cfg (locked_delta e2) addr mshr e2).  (* step 8 *)

(** ** The tracker table (DESIGN.md, IP Tracker Table; steps 1 to 3) *)

(** [ip ^ (ip >> 2) ^ (ip >> 5)] *)
Definition ip_hash (i : Z) : Z :=
  Z.lxor (Z.lxor i (Z.shiftr i 2)) (Z.shiftr i 5).

(** A [std::map] keyed by the hashed IP and a [std::queue] of the keys in
    the order of their insertion. *)
Record fourier_state := {
  table : gmap Z fourier_entry;
  fifo : list Z
}.

Definition empty_state : fourier_state := {| table := ∅; fifo := [] |}.

(** [evict oldest if table full (FIFO)] *)
Definition evict_oldest (st : fourier_state) : fourier_state :=
  match fifo st with
  | [] => st
  | k :: q => {| table := delete k (table st); fifo := q |}
  end.

Definition allocate (key cl : Z) (st : fourier_state) : fourier_state :=
  let st1 := if TABLE_SIZE <=? Z.of_nat (length (fifo st))
             then evict_oldest st else st in
  {| table := <[key := new_entry key cl]> (table st1);
     fifo := fifo st1 ++ [key] |}.

Definition cl_addr_of (cfg : config) (addr : Z) : Z :=
  Z.shiftr addr (LOG2_BLOCK_SIZE cfg).

(** [prefetcher_cache_operate(addr, ip, cache_hit, ...)]; the hit flag is
    not read. *)
Definition prefetcher_cache_operate (cfg : config) (addr i : Z) (mshr : Q)
    (st : fourier_state) : outcome (fourier_state * option request) :=
  let key := ip_hash i in
  let cl := cl_addr_of cfg addr in
  match table st !! key with
  | None => Ok (allocate key cl st, None)
  | Some e =>
      let delta := wrap_i16 (cl - last_cl_addr e) in
      match entry_operate cfg delta addr mshr (set_last_cl_addr cl e) with
      | ModuloByZero => ModuloByZero
      | Ok (e', out) =>
          Ok ({| table := <[key := e']> (table st); fifo := fifo st |}, out)
      end
  end.

(** *** Runs *)

Record access := { a_addr : Z; a_ip : Z; a_mshr : Q }.

(** The state after a sequence of accesses, with the requests they
    emitted, one slot per access. *)
Fixpoint run (cfg : config) (tr : list access) (st : fourier_state)
    : outcome (fourier_state * list (option request)) :=
  match tr with
  | [] => Ok (st, [])
  | a :: tr' =>
      match prefetcher_cache_operate cfg (a_addr a) (a_ip a) (a_mshr a) st with
      | ModuloByZero => ModuloByZero
      | Ok (st1, out) =>
          match run cfg tr' st1 with
          | ModuloByZero => ModuloByZero
          | Ok (st2, outs) => Ok (st2, out :: outs)
          end
      end
  end.

(** ** Definitions used by the statements *)

(** The best period is the first maximum among the candidates in the order
    in which they are visited. *)
Definition first_max (pw : Z -> Q) (visited : list Z) (r : Z * Q) : Prop :=
  snd r = pw (fst r) /\
  exists l1 l2, visited = l1 ++ fst r :: l2 /\
    (forall P, P ∈ l1 -> (pw P < snd r)%Q) /\
    (forall P, P ∈ l2 -> (pw P <= snd r)%Q).

(** *** Concrete inputs for the examples *)

(** 64-byte lines and 4 KiB pages, with a power threshold of 100. *)
Definition example_config : config :=
  {| BLOCK_SIZE := 64; LOG2_BLOCK_SIZE := 6; LOG2_PAGE_SIZE := 12;
     POWER_THRESHOLD := Qmake 100 1 |}.

(** The byte addresses of a line-address walk: start at line [cl], then
    move by each delta in turn. *)
Fixpoint walk (cl : Z) (ds : list Z) : list Z :=
  match ds with
  | [] => []
  | d :: ds' => (cl + d) * 64 :: walk (cl + d) ds'
  end.

(** The accesses of one IP that start at line [cl] and produce the deltas
    [ds]; the MSHR is empty throughout. *)
Definition stream (i cl : Z) (ds : list Z) : list access :=
  (fun a => {| a_addr := a; a_ip := i; a_mshr := Qmake 0 1 |}) <$> (cl * 64 :: walk cl ds).

(** [n] repetitions of a pattern. *)
Fixpoint cycle (n : nat) (p : list Z) : list Z :=
  match n with
  | O => []
  | S n' => p ++ cycle n' p
  end.

Definition requests_of {S : Type} (o : outcome (S * list (option request)))
    : option (list (option request)) :=
  match o with
  | Ok (_, outs) => Some outs
  | ModuloByZero => None
  end.

(** The entry of an IP after a run, if the run ends and the IP is tracked. *)
Definition entry_after (o : outcome (fourier_state * list (option request))) (i : Z)
    : option fourier_entry :=
  match o with
  | Ok (st, _) => table st !! ip_hash i
  | ModuloByZero => None
  end.

(** Period, stability, confidence and pending flag of IP 77 after the
    first access at line 1000 and [n] more whose deltas alternate between 4
    and 8, from the empty table. *)
Definition lock_after (n : nat) : option (Z * Z * Z * bool) :=
  (fun e => (period e, stability e, confidence e, has_prediction e)) <$>
  entry_after (run example_config (stream 77 1000 (take n (cycle 524 [4; 8]))) empty_state) 77.

Definition entry_of (o : outcome (fourier_entry * option request)) : option fourier_entry :=
  match o with
  | Ok (e, _) => Some e
  | ModuloByZero => None
  end.

(** An entry on a stride of 4 lines that was last seen at line [cl], with
    confidence [c] and nothing pending. *)
Definition stride_entry (cl c : Z) : fourier_entry :=
  {| ip := ip_hash 77; last_cl_addr := cl;
     delta_buf := [4; 4; 4] ++ replicate 21 0; buf_head := 3; buf_count := 3;
     pattern := replicate 12 0; period := 0; phase := 0;
     confidence := c; stability := 0;
     last_prediction := 0; has_prediction := false; accesses := 0 |}.

Definition stride_state (cl c : Z) : fourier_state :=
  {| table := {[ ip_hash 77 := stride_entry cl c ]}; fifo := [ip_hash 77] |}.

(** An entry locked on period 2 with the pattern 4, 8, whose last prediction
    (4) is pending and whose confidence has come down to [c]. *)
Definition locked_entry (c : Z) : fourier_entry :=
  {| ip := ip_hash 77; last_cl_addr := 1000;
     delta_buf := cycle 12 [4; 8]; buf_head := 0; buf_count := 24;
     pattern := [4; 8] ++ replicate 10 0; period := 2; phase := 0;
     confidence := c; stability := 3;
     last_prediction := 4; has_prediction := true; accesses := 1 |}.



(** *** The delta buffer as a history *)

Definition buffer_ok (e : fourier_entry) : Prop :=
  length (delta_buf e) = Z.to_nat BUF_SIZE /\
  0 <= buf_head e < BUF_SIZE /\
  0 <= buf_count e <= BUF_SIZE.

(** *** The table as a set of keys in insertion order *)

(** The table and the queue hold the same keys, each once, and no more
    than the table size. *)
Definition table_ok (st : fourier_state) : Prop :=
  NoDup (fifo st) /\
  (forall k, k ∈ fifo st <-> is_Some (table st !! k)) /\
  size (table st) = length (fifo st) /\
  (length (fifo st) <= Z.to_nat TABLE_SIZE)%nat.

(** The distinct elements of a list in the order of their first
    occurrence, after those of [seen]. *)
Definition first_seen_from {A : Type} `{EqDecision A} (seen l : list A) : list A :=
  fold_left (fun acc k => if decide (k ∈ acc) then acc else acc ++ [k]) l seen.

Definition first_seen {A : Type} `{EqDecision A} (l : list A) : list A :=
  first_seen_from [] l.

(** 256 IPs, 0 to 255, each accessed once at address 0. *)
Definition many_ips : list access :=
  (fun i => {| a_addr := 0; a_ip := i; a_mshr := Qmake 0 1 |}) <$> seqZ 0 256.

(** *** Streams of deltas on one entry *)

(** One event per access of a returning IP: its delta, its byte address
    and the MSHR occupancy at the time. *)
Definition event : Type := Z * Z * Q.

Definition deltas_of (evs : list event) : list Z := (fun ev => ev.1.1) <$> evs.

(** [entry_operate] along a list of events; the requests are dropped. *)
Fixpoint entry_run (cfg : config) (evs : list event) (e : fourier_entry)
    : outcome fourier_entry :=
  match evs with
  | [] => Ok e
  | (d, addr, mshr) :: evs' =>
      match entry_operate cfg d addr mshr e with
      | Ok (e', _) => entry_run cfg evs' e'
      | ModuloByZero => ModuloByZero
      end
  end.




(** The last [k] of the first [n] deltas of a stream. *)
Definition window (ds : list Z) (n k : nat) : list Z := drop (n - k) (take n ds).

(** The analysis that follows the [n]-th delta is not pre-empted by the
    fast path and finds period [P] with a power above the threshold. *)
Definition spectral_round (cfg : config) (ds : list Z) (n : nat) (P : Z) : Prop :=
  identical_nonzero (window ds n 4) = false /\
  fst (detect_with (window_power (window ds n 24))) = P /\
  Qle_bool (snd (detect_with (window_power (window ds n 24)))) (POWER_THRESHOLD cfg) = false.

(** An entry that has taken the first [n] deltas of [ds] since it was
    allocated and has never had a prediction pending. *)
Definition fed (ds : list Z) (n : nat) (e : fourier_entry) : Prop :=
  buffer_ok e /\
  buf_count e = Z.min (Z.of_nat n) BUF_SIZE /\
  accesses e = (Z.of_nat n + 1) mod ANALYSIS_INTERVAL /\
  confidence e = 0 /\ has_prediction e = false /\
  forall k : nat, (k <= n)%nat -> (k <= 24)%nat -> last_k e (Z.of_nat k) = window ds n k.

(** 35 events whose deltas alternate between 4 and 8, all at one address. *)
Definition alternating_events : list event :=
  (fun d => (d, 64000, Qmake 0 1)) <$> take 35 (cycle 18 [4; 8]).

(** Every entry of the table has confidence 0 and nothing pending. *)
Definition cold_table (st : fourier_state) : Prop :=
  forall k e, table st !! k = Some e -> confidence e = 0 /\ has_prediction e = false.

(** Every entry of the table is stored under its own [ip] field and has a
    well-formed buffer. *)
Definition entries_ok (st : fourier_state) : Prop :=
  forall k e, table st !! k = Some e -> ip e = k /\ buffer_ok e.
(** ** The hash is one to one *)

Lemma ip_hash_lxor (a b : Z) :
  Z.lxor (ip_hash a) (ip_hash b) = ip_hash (Z.lxor a b).
Proof.
  unfold ip_hash. rewrite !Z.shiftr_lxor.
  apply Z.bits_inj'. intros n Hn. rewrite !Z.lxor_spec.
  repeat match goal with |- context [Z.testbit ?x ?i] => destruct (Z.testbit x i) end; reflexivity.
Qed.

Lemma ip_hash_zero (z : Z) : 0 <= z -> ip_hash z = 0 -> z = 0.
Proof.
  intros Hz H.
  destruct (Z.eq_dec z 0) as [|Hne]; [assumption|exfalso].
  assert (Hpos : 0 < z) by lia.
  pose proof (Z.log2_nonneg z) as Hl.
  assert (Hb : Z.testbit (ip_hash z) (Z.log2 z) = false) by (rewrite H; apply Z.bits_0).
  unfold ip_hash in Hb. rewrite !Z.lxor_spec, !Z.shiftr_spec in Hb by lia.
  rewrite (Z.bit_log2 z Hpos) in Hb.
  rewrite (Z.bits_above_log2 z (Z.log2 z + 2)) in Hb by lia.
  rewrite (Z.bits_above_log2 z (Z.log2 z + 5)) in Hb by lia.
  discriminate.
Qed.

Lemma ip_hash_inj (a b : Z) : 0 <= a -> 0 <= b -> ip_hash a = ip_hash b -> a = b.
Proof.
  intros Ha Hb H. apply Z.lxor_eq. apply ip_hash_zero.
  - apply Z.lxor_nonneg. lia.
  - rewrite <- ip_hash_lxor, H. apply Z.lxor_nilpotent.
Qed.

(** ** The argmax over the candidate periods *)

Lemma first_max_step pw visited r P :
  first_max pw visited r -> first_max pw (visited ++ [P]) (better pw r P).
Proof.
  intros (Hs & l1 & l2 & Hv & H1 & H2). unfold better.
  destruct (Qle_bool (pw P) (snd r)) eqn:E.
  - apply Qle_bool_iff in E. split; [assumption|].
    exists l1, (l2 ++ [P]). split; [|split].
    + rewrite Hv, <- app_assoc. reflexivity.
    + assumption.
    + intros P' HP'. apply elem_of_app in HP' as [HP'|HP']; [auto|].
      apply list_elem_of_singleton in HP'. subst. assumption.
  - assert (Hlt : (snd r < pw P)%Q).
    { apply Qnot_le_lt. intros Hle. apply Qle_bool_iff in Hle. congruence. }
    split; [reflexivity|]. simpl.
    exists visited, []. split; [reflexivity|split].
    + intros P' HP'. rewrite Hv in HP'.
      apply elem_of_app in HP' as [HP'|HP'].
      * eapply Qlt_trans; [apply H1, HP'|assumption].
      * apply elem_of_cons in HP' as [->|HP'].
        -- rewrite <- Hs. assumption.
        -- eapply Qle_lt_trans; [apply H2, HP'|assumption].
    + intros P' HP'. inversion HP'.
Qed.

Lemma first_max_fold pw l visited r :
  first_max pw visited r -> first_max pw (visited ++ l) (fold_left (better pw) l r).
Proof.
  revert visited r. induction l as [|P l IH]; intros visited r H; simpl.
  - rewrite app_nil_r. assumption.
  - replace (visited ++ P :: l) with ((visited ++ [P]) ++ l) by (rewrite <- app_assoc; reflexivity).
    apply IH, first_max_step, H.
Qed.

Lemma detect_with_first_max pw : first_max pw candidate_periods (detect_with pw).
Proof.
  unfold detect_with. apply (first_max_fold pw [3;4;6;8;12] [2] (2, pw 2)).
  split; [reflexivity|]. exists [], []. simpl. split; [reflexivity|].
  split; intros P HP; inversion HP.
Qed.

(** ** Step 8 *)

Lemma prefetch_keeps cfg pd addr mshr e :
  let e' := fst (prefetch cfg pd addr mshr e) in
  confidence e' = confidence e /\ period e' = period e /\
  stability e' = stability e /\ pattern e' = pattern e /\
  delta_buf e' = delta_buf e /\ buf_head e' = buf_head e /\
  buf_count e' = buf_count e /\ accesses e' = accesses e /\
  last_cl_addr e' = last_cl_addr e /\ ip e' = ip e.
Proof.
  unfold prefetch. destruct pd as [d|]; simpl; [|tauto].
  destruct (CONFIDENCE_ISSUE <=? confidence e); simpl; [|tauto].
  destruct (same_page cfg _ addr); simpl; tauto.
Qed.

Lemma prefetch_request cfg pd addr mshr e r :
  snd (prefetch cfg pd addr mshr e) = Some r ->
  exists d, pd = Some d /\ CONFIDENCE_ISSUE <= confidence e /\
    pf_addr r = wrap_u64 (addr + d * BLOCK_SIZE cfg) /\
    same_page cfg (pf_addr r) addr = true /\
    fst (prefetch cfg pd addr mshr e) = advance_phase (set_prediction d true e).
Proof.
  unfold prefetch. destruct pd as [d|]; simpl; [|discriminate].
  destruct (CONFIDENCE_ISSUE <=? confidence e) eqn:Ec; simpl; [|discriminate].
  destruct (same_page cfg _ addr) eqn:Ep; simpl; [|discriminate].
  intros [= <-]. exists d. simpl. repeat split; auto. lia.
Qed.

Lemma prefetch_withheld cfg pd addr mshr e :
  pd = None \/ confidence e < CONFIDENCE_ISSUE ->
  prefetch cfg pd addr mshr e = (e, None).
Proof.
  unfold prefetch. intros [->|Hc]; [reflexivity|].
  destruct pd; [|reflexivity].
  destruct (CONFIDENCE_ISSUE <=? confidence e) eqn:Ec; [lia|reflexivity].
Qed.


(** ** Step 5 *)

Lemma confidence_check_keeps d e :
  let e' := confidence_check d e in
  delta_buf e' = delta_buf e /\ buf_head e' = buf_head e /\
  buf_count e' = buf_count e /\ accesses e' = accesses e /\
  pattern e' = pattern e /\ phase e' = phase e /\
  has_prediction e' = has_prediction e /\ last_prediction e' = last_prediction e.
Proof.
  unfold confidence_check. destruct (has_prediction e) eqn:Eh; simpl; [|tauto].
  destruct (_ =? 0); simpl; tauto.
Qed.

Lemma confidence_check_value d e :
  confidence (confidence_check d e) =
  if has_prediction e then
    if d =? last_prediction e then Z.min (confidence e + 1) CONFIDENCE_MAX
    else Z.max (confidence e - 2) 0
  else confidence e.
Proof.
  unfold confidence_check. destruct (has_prediction e); [|reflexivity].
  destruct (_ =? 0); reflexivity.
Qed.

Lemma confidence_check_skipped d e :
  has_prediction e = false -> confidence_check d e = e.
Proof. unfold confidence_check. intros ->. reflexivity. Qed.

Lemma confidence_check_lock d e :
  let e' := confidence_check d e in
  (period e' = period e /\ stability e' = stability e) \/
  (has_prediction e = true /\ confidence e' = 0 /\ period e' = 0 /\ stability e' = 0).
Proof.
  unfold confidence_check. destruct (has_prediction e); [|left; tauto].
  destruct (_ =? 0) eqn:E; simpl; [right|left; tauto].
  apply Z.eqb_eq in E. tauto.
Qed.

(** ** Step 7 *)

Lemma fourier_analysis_keeps cfg e :
  let e' := fourier_analysis cfg e in
  confidence e' = confidence e /\ has_prediction e' = has_prediction e /\
  last_prediction e' = last_prediction e /\
  delta_buf e' = delta_buf e /\ buf_head e' = buf_head e /\
  buf_count e' = buf_count e /\ accesses e' = accesses e.
Proof.
  cbv zeta. unfold fourier_analysis. destruct (Qle_bool _ _); [repeat split; reflexivity|].
  destruct (_ =? period e); cbn;
    try destruct (_ <=? _); cbn; repeat split; reflexivity.
Qed.

(** What one analysis does to the lock: nothing below the threshold, one
    more agreeing round, or a switch to the best period with stability 1. *)
Lemma fourier_analysis_lock cfg e :
  let e' := fourier_analysis cfg e in
  let best := detect e in
  (Qle_bool (snd best) (POWER_THRESHOLD cfg) = true /\ e' = e) \/
  (Qle_bool (snd best) (POWER_THRESHOLD cfg) = false /\ fst best = period e /\
   period e' = period e /\ stability e' = wrap_u8 (stability e + 1)) \/
  (Qle_bool (snd best) (POWER_THRESHOLD cfg) = false /\ fst best <> period e /\
   period e' = fst best /\ stability e' = 1).
Proof.
  cbv zeta. unfold fourier_analysis.
  destruct (Qle_bool _ _) eqn:Et; [left; split; reflexivity|right].
  destruct (_ =? period e) eqn:E; [left|right].
  - apply Z.eqb_eq in E. cbn.
    destruct (_ <=? _); cbn; repeat split; auto.
  - apply Z.eqb_neq in E. cbn. repeat split; auto.
Qed.

Lemma detect_candidate e : fst (detect e) ∈ candidate_periods.
Proof.
  destruct (detect_with_first_max (window_power (last_k e BUF_SIZE))) as (_ & l1 & l2 & Hv & _).
  unfold detect. rewrite Hv. apply elem_of_app. right. apply elem_of_cons. left. reflexivity.
Qed.
(** ** The circular buffer *)

Lemma buf_at_push d e j :
  buffer_ok e -> 0 <= j < BUF_SIZE ->
  buf_at (push_delta d e) j = if j =? buf_head e then d else buf_at e j.
Proof.
  intros (Hl & Hh & _) Hj. unfold buf_at, push_delta. cbn.
  destruct (j =? buf_head e) eqn:E.
  - apply Z.eqb_eq in E. subst j.
    rewrite list_lookup_insert_eq by lia. reflexivity.
  - apply Z.eqb_neq in E.
    rewrite list_lookup_insert_ne by lia. reflexivity.
Qed.

Lemma last_k_push d e k :
  buffer_ok e -> 0 <= k < BUF_SIZE ->
  last_k (push_delta d e) (k + 1) = last_k e k ++ [d].
Proof.
  intros Hok Hk. pose proof Hok as (Hl & Hh & _). unfold BUF_SIZE in *.
  unfold last_k. rewrite seqZ_app by lia. rewrite fmap_app. f_equal.
  - apply list_fmap_ext. intros i x Hx.
    apply lookup_seqZ in Hx as (-> & Hi).
    rewrite buf_at_push by (unfold BUF_SIZE; auto; apply Z.mod_pos_bound; lia).
    change (buf_head (push_delta d e)) with ((buf_head e + 1) mod 24).
    unfold BUF_SIZE.
    replace (((buf_head e + 1) mod 24 + 24 - (k + 1) + (0 + Z.of_nat i)) mod 24)
      with ((buf_head e + 24 - k + (0 + Z.of_nat i)) mod 24).
    2:{ generalize (Z.of_nat i). intros z. Z.div_mod_to_equations. lia. }
    destruct (_ =? buf_head e) eqn:E; [|reflexivity].
    apply Z.eqb_eq in E. exfalso.
    pose proof (Nat2Z.is_nonneg i) as Hi0.
    revert E Hi Hi0. generalize (Z.of_nat i). intros z E Hz Hz0.
    Z.div_mod_to_equations. lia.
  - replace (seqZ (0 + k) 1) with [k] by (unfold seqZ; cbn; f_equal; lia).
    cbn [fmap list_fmap]. f_equal.
    rewrite buf_at_push by (unfold BUF_SIZE; auto; apply Z.mod_pos_bound; lia).
    change (buf_head (push_delta d e)) with ((buf_head e + 1) mod 24).
    unfold BUF_SIZE.
    replace (((buf_head e + 1) mod 24 + 24 - (k + 1) + k) mod 24) with (buf_head e).
    + rewrite Z.eqb_refl. reflexivity.
    + Z.div_mod_to_equations. lia.
Qed.

Lemma last_k_ext e e' k :
  delta_buf e' = delta_buf e -> buf_head e' = buf_head e -> last_k e' k = last_k e k.
Proof. intros Hb Hh. unfold last_k, buf_at. rewrite Hb, Hh. reflexivity. Qed.

Lemma push_delta_ok d e : buffer_ok e -> buffer_ok (push_delta d e).
Proof.
  intros (Hl & Hh & Hc). unfold buffer_ok, push_delta, BUF_SIZE in *. cbn.
  rewrite length_insert. split; [exact Hl|]. split.
  - apply Z.mod_pos_bound. lia.
  - lia.
Qed.

Lemma last_k_tail e k : 0 <= k -> last_k e k = tail (last_k e (k + 1)).
Proof.
  intros Hk. unfold last_k.
  rewrite (seqZ_cons 0 (k + 1)) by lia. cbn [fmap list_fmap tail].
  replace (Z.pred (k + 1)) with k by lia.
  change (Z.succ 0) with (1 + 0).
  rewrite <- (fmap_add_seqZ 1 0 k), <- list_fmap_compose.
  apply list_fmap_ext. intros i x _. cbn. f_equal. f_equal. lia.
Qed.
(** ** One access of a returning IP *)

Lemma Ok_inj {A : Type} (a b : A) : Ok a = Ok b -> a = b.
Proof. intros H. injection H as H. exact H. Qed.

(** The three ways through steps 6 to 8. *)
Lemma entry_operate_cases cfg delta addr mshr e r :
  entry_operate cfg delta addr mshr e = Ok r ->
  let e2 := confidence_check delta (count_access (push_delta delta e)) in
  (fast_path_ready e2 = true /\ r = prefetch cfg (Some delta) addr mshr e2) \/
  (fast_path_ready e2 = false /\ analysis_due e2 = true /\
   period (fourier_analysis cfg e2) <> 0 /\
   r = prefetch cfg (locked_delta (fourier_analysis cfg e2)) addr mshr
         (fourier_analysis cfg e2)) \/
  (fast_path_ready e2 = false /\ analysis_due e2 = false /\
   r = prefetch cfg (locked_delta e2) addr mshr e2).
Proof.
  unfold entry_operate. cbv zeta.
  destruct (fast_path_ready _) eqn:Ef.
  - intros H. apply Ok_inj in H. subst r. left. split; reflexivity.
  - destruct (analysis_due _) eqn:Ea.
    + unfold replay_delta, locked_delta, period_locked.
      destruct (period (fourier_analysis cfg _) =? 0) eqn:Ep; [discriminate|].
      intros H. apply Ok_inj in H. subst r. right. left. apply Z.eqb_neq in Ep.
      split; [reflexivity|split; [reflexivity|split; [exact Ep|]]].
      cbn [negb]. reflexivity.
    + intros H. apply Ok_inj in H. subst r. right. right. repeat split; reflexivity.
Qed.

Lemma entry_operate_fault cfg delta addr mshr e :
  entry_operate cfg delta addr mshr e = ModuloByZero <->
  let e2 := confidence_check delta (count_access (push_delta delta e)) in
  fast_path_ready e2 = false /\ analysis_due e2 = true /\
  period (fourier_analysis cfg e2) = 0.
Proof.
  unfold entry_operate. cbv zeta.
  destruct (fast_path_ready _) eqn:Ef.
  - split; [discriminate|]. intros (H & _). discriminate.
  - destruct (analysis_due _) eqn:Ea.
    + unfold replay_delta.
      destruct (period (fourier_analysis cfg _) =? 0) eqn:Ep.
      * apply Z.eqb_eq in Ep. tauto.
      * apply Z.eqb_neq in Ep. split; [discriminate|]. intros (_ & _ & H). contradiction.
    + split; [discriminate|]. intros (_ & H & _). discriminate.
Qed.
(** ** No request leaves the page *)

Lemma operate_request cfg addr i mshr st st' r :
  prefetcher_cache_operate cfg addr i mshr st = Ok (st', Some r) ->
  exists e pd, snd (prefetch cfg pd addr mshr e) = Some r.
Proof.
  unfold prefetcher_cache_operate. cbv zeta.
  destruct (table st !! ip_hash i) as [e|].
  - destruct (entry_operate _ _ _ _ _) as [[e' out]|] eqn:E; [|discriminate].
    intros H. apply Ok_inj in H.
    assert (Hout : out = Some r) by congruence. subst out.
    apply entry_operate_cases in E. cbv zeta in E.
    destruct E as [(_ & E)|[(_ & _ & _ & E)|(_ & _ & E)]];
      eexists _, _; rewrite <- E; reflexivity.
  - intros H. apply Ok_inj in H. congruence.
Qed.

(** C2: a request that is emitted has its target on the page of the access
    that triggered it; the target is the address moved by a whole number of
    lines, computed in 64 bits. *)
Theorem request_on_same_page cfg addr i mshr st st' r :
  prefetcher_cache_operate cfg addr i mshr st = Ok (st', Some r) ->
  Z.shiftr (pf_addr r) (LOG2_PAGE_SIZE cfg) = Z.shiftr addr (LOG2_PAGE_SIZE cfg) /\
  exists d, pf_addr r = wrap_u64 (addr + d * BLOCK_SIZE cfg).
Proof.
  intros H. apply operate_request in H as (e & pd & H).
  apply prefetch_request in H as (d & _ & _ & Ht & Hp & _).
  split; [|exists d; exact Ht].
  unfold same_page in Hp. apply Z.eqb_eq in Hp. exact Hp.
Qed.

Lemma request_on_same_page_witness :
  Z.shiftr 64512 12 = Z.shiftr 64256 12 /\
  exists d, 64512 = wrap_u64 (64256 + d * 64).
Proof.
  eapply (request_on_same_page example_config 64256 77 (Qmake 0 1) (stride_state 1000 3) _
            {| pf_addr := 64512; fill_this_level := false |}).
  vm_compute. reflexivity.
Defined.
(** ** A round without a predicted delta *)

(** C9 fails on the code, by the remainder of step 7: on the 28th access of
    one IP to one address the fast path is not ready, the analysis leaves
    the period at 0 and the confidence is 0, so the round has no predicted
    delta; it does not end in a withheld prefetch but in the remainder
    [phase % period] with period 0.  The 27 accesses before it end with the
    entry unlocked and nothing pending. *)
Theorem round_without_delta_faults :
  exists st outs e,
    run example_config (stream 77 1000 (replicate 26 0)) empty_state = Ok (st, outs) /\
    table st !! ip_hash 77 = Some e /\
    (let e2 := confidence_check 0 (count_access (push_delta 0 (set_last_cl_addr 1000 e))) in
     fast_path_ready e2 = false /\ analysis_due e2 = true /\
     period (fourier_analysis example_config e2) = 0 /\
     confidence (fourier_analysis example_config e2) = 0 /\
     has_prediction e = false) /\
    prefetcher_cache_operate example_config (1000 * 64) 77 (Qmake 0 1) st = ModuloByZero.
Proof.
  eexists _, _, _. split; [vm_compute; reflexivity|].
  split; [vm_compute; reflexivity|].
  split; [|vm_compute; reflexivity].
  cbv zeta. split; [|split; [|split; [|split]]]; vm_compute; reflexivity.
Qed.
(** ** The confidence and stability counters *)

Lemma entry_operate_check cfg delta addr mshr e e' out :
  entry_operate cfg delta addr mshr e = Ok (e', out) ->
  let e2 := confidence_check delta (count_access (push_delta delta e)) in
  confidence e' = confidence e2 /\
  ((period e' = period e2 /\ stability e' = stability e2) \/
   (analysis_due e2 = true /\
    period e' = period (fourier_analysis cfg e2) /\
    stability e' = stability (fourier_analysis cfg e2))).
Proof.
  intros H e2. apply entry_operate_cases in H. cbv zeta in H. fold e2 in H.
  destruct H as [(Hf & H)|[(Hf & Ha & Hp & H)|(Hf & Ha & H)]].
  - pose proof (prefetch_keeps cfg (Some delta) addr mshr e2) as (Hc & Hp & Hs & _).
    rewrite <- H in Hc, Hp, Hs. cbn [fst] in Hc, Hp, Hs. auto.
  - pose proof (prefetch_keeps cfg (locked_delta (fourier_analysis cfg e2)) addr mshr
                  (fourier_analysis cfg e2)) as (Hc & Hp' & Hs & _).
    rewrite <- H in Hc, Hp', Hs. cbn [fst] in Hc, Hp', Hs.
    pose proof (fourier_analysis_keeps cfg e2) as (Hc' & _).
    split; [congruence|right; auto].
  - pose proof (prefetch_keeps cfg (locked_delta e2) addr mshr e2) as (Hc & Hp & Hs & _).
    rewrite <- H in Hc, Hp, Hs. cbn [fst] in Hc, Hp, Hs. auto.
Qed.

(** X14: one access keeps the confidence within 0..7: +1 up to 7 on a verified
    match, -2 down to 0 on a mismatch, and no change where nothing is
    pending. *)
Theorem confidence_stays_in_range cfg delta addr mshr e e' out :
  0 <= confidence e <= CONFIDENCE_MAX ->
  entry_operate cfg delta addr mshr e = Ok (e', out) ->
  0 <= confidence e' <= CONFIDENCE_MAX /\
  confidence e' =
    (if has_prediction e then
       if delta =? last_prediction e then Z.min (confidence e + 1) CONFIDENCE_MAX
       else Z.max (confidence e - 2) 0
     else confidence e).
Proof.
  intros Hc H. apply entry_operate_check in H. cbv zeta in H.
  destruct H as (Hc' & _).
  pose proof (confidence_check_value delta (count_access (push_delta delta e))) as Hv.
  change (has_prediction (count_access (push_delta delta e))) with (has_prediction e) in Hv.
  change (last_prediction (count_access (push_delta delta e))) with (last_prediction e) in Hv.
  change (confidence (count_access (push_delta delta e))) with (confidence e) in Hv.
  rewrite Hc', Hv. unfold CONFIDENCE_MAX in *.
  split; [|reflexivity].
  destruct (has_prediction e); [destruct (_ =? _)|]; lia.
Qed.

Lemma confidence_stays_in_range_witness :
  exists e', entry_of (entry_operate example_config 4 64000 (Qmake 0 1) (locked_entry 7)) = Some e'
   /\ confidence e' = 7.
Proof.
  set (r := entry_operate example_config 4 64000 (Qmake 0 1) (locked_entry 7)).
  assert (Hr : exists e' out, r = Ok (e', out)).
  { vm_compute. eexists _, _. reflexivity. }
  destruct Hr as (e' & out & Hr).
  exists e'. rewrite Hr. split; [reflexivity|].
  assert (H7 : 0 <= confidence (locked_entry 7) <= CONFIDENCE_MAX) by (vm_compute; split; discriminate).
  exact (proj2 (confidence_stays_in_range _ _ _ _ _ _ _ H7 Hr)).
Defined.

(** C3 fails on the code, on the stability counter.  One IP walks with the
    deltas 4, 8, 4, 8, ... from the empty table; no prediction is ever
    pending, so there is no mismatch and the confidence stays 0.  The first
    analysis (after 27 deltas) sets period 2 with stability 1; every
    analysis after it finds period 2 again and runs [stability++] on the
    8-bit counter, which stands at 255 after 1043 deltas and at 0 after
    1047, with the period still 2. *)
Theorem stability_wraps_to_zero :
  lock_after 27 = Some (2, 1, 0, false) /\
  lock_after 1043 = Some (2, 255, 0, false) /\
  lock_after 1047 = Some (2, 0, 0, false).
Proof. split; [|split]; vm_compute; reflexivity. Qed.
(** ** The reset on confidence 0 *)








(** ** The remainder by the period *)

(** The last line of step 7 is reached with period 0 exactly when the
    analysis of a round leaves the period at 0. *)
Lemma fault_when_unlocked_analysis cfg delta addr mshr e :
  let e2 := confidence_check delta (count_access (push_delta delta e)) in
  fast_path_ready e2 = false -> analysis_due e2 = true ->
  period e2 = 0 ->
  Qle_bool (snd (detect e2)) (POWER_THRESHOLD cfg) = true ->
  entry_operate cfg delta addr mshr e = ModuloByZero.
Proof.
  intros e2 Hf Ha Hp Ht. apply entry_operate_fault. cbv zeta. fold e2.
  split; [exact Hf|split; [exact Ha|]].
  destruct (fourier_analysis_lock cfg e2) as [(_ & H)|[(H & _)|(H & _)]];
    [rewrite H; exact Hp|congruence|congruence].
Qed.

(** C8 fails on the code: 28 accesses of one IP to one address (27 deltas
    of 0) end in the remainder [phase % period] with period 0. *)
Theorem replay_modulo_by_zero :
  run example_config (stream 77 1000 (replicate 27 0)) empty_state = ModuloByZero /\
  (exists st outs,
     run example_config (stream 77 1000 (replicate 26 0)) empty_state = Ok (st, outs) /\
     (period <$> table st !! ip_hash 77) = Some 0).
Proof.
  split; [vm_compute; reflexivity|].
  eexists _, _. split; [vm_compute; reflexivity|]. vm_compute. reflexivity.
Qed.

(** ** A constant stride from a fresh entry *)

(** C6 as stated fails.  From a fresh entry the deltas 4, 4, 4, 4 end in
    a fifth access that emits no request, and no later access emits one.
    And an entry on the stride with full confidence emits none on the access
    to line 1020, whose target, line 1024, is on the next page. *)
Lemma constant_stride_no_request :
  requests_of (run example_config (stream 77 1000 (replicate 4 4)) empty_state)
  = Some [None; None; None; None; None] /\
  requests_of (run example_config (stream 77 1000 (replicate 8 4)) empty_state)
  = Some (replicate 9 None) /\
  requests_of (run example_config [ {| a_addr := 1020 * 64; a_ip := 77; a_mshr := Qmake 0 1 |} ]
                 (stride_state 1016 7))
  = Some [None].
Proof. split; [|split]; vm_compute; reflexivity. Qed.

(** ** The stride fast path *)

Lemma fast_path_after_three d e :
  d <> 0 -> buffer_ok e -> 3 <= buf_count e -> last_k e 3 = [d; d; d] ->
  let e2 := confidence_check d (count_access (push_delta d e)) in
  fast_path_ready e2 = true /\
  buffer_ok e2 /\ 3 <= buf_count e2 /\ last_k e2 3 = [d; d; d].
Proof.
  intros Hd Hok Hc Hl e2.
  pose proof (confidence_check_keeps d (count_access (push_delta d e)))
    as (Hb & Hh & Hn & _). fold e2 in Hb, Hh, Hn.
  change (delta_buf (count_access (push_delta d e))) with (delta_buf (push_delta d e)) in Hb.
  change (buf_head (count_access (push_delta d e))) with (buf_head (push_delta d e)) in Hh.
  change (buf_count (count_access (push_delta d e))) with (buf_count (push_delta d e)) in Hn.
  assert (H4 : last_k e2 4 = [d; d; d; d]).
  { rewrite (last_k_ext (push_delta d e)) by assumption.
    change 4 with (3 + 1).
    rewrite (last_k_push d e 3) by (unfold BUF_SIZE; auto; lia).
    rewrite Hl. reflexivity. }
  assert (Hn' : buf_count e2 = Z.min (buf_count e + 1) BUF_SIZE) by exact Hn.
  unfold BUF_SIZE in Hn'.
  split; [|split; [|split]].
  - unfold fast_path_ready. rewrite H4. cbn [identical_nonzero].
    rewrite !Z.eqb_refl. apply Z.eqb_neq in Hd. rewrite Hd.
    replace (4 <=? buf_count e2) with true by (symmetry; apply Z.leb_le; lia).
    reflexivity.
  - pose proof (push_delta_ok d e Hok) as (Hl' & Hh' & Hc').
    unfold buffer_ok. rewrite Hb, Hh, Hn. auto.
  - lia.
  - rewrite (last_k_tail e2 3) by lia. change (3 + 1) with 4. rewrite H4. reflexivity.
Qed.

(** C6, as the code has it: once the last three deltas of an entry are the
    nonzero constant [d], an access with delta [d] takes the fast path, so
    no analysis runs and period, stability and pattern stay as the
    confidence check left them; a request for the address [d] lines ahead
    is emitted exactly when the confidence is at least 3 and that address is
    on the same page; and the last three deltas are [d] again, so the same
    holds on every later access of the stream. *)
Theorem constant_stride_fast_path cfg d addr mshr e :
  d <> 0 -> buffer_ok e -> 3 <= buf_count e -> last_k e 3 = [d; d; d] ->
  let e2 := confidence_check d (count_access (push_delta d e)) in
  let target := wrap_u64 (addr + d * BLOCK_SIZE cfg) in
  exists e' out,
    entry_operate cfg d addr mshr e = Ok (e', out) /\
    period e' = period e2 /\ stability e' = stability e2 /\ pattern e' = pattern e2 /\
    (CONFIDENCE_ISSUE <= confidence e2 -> same_page cfg target addr = true ->
     exists level, out = Some {| pf_addr := target; fill_this_level := level |}) /\
    (confidence e2 < CONFIDENCE_ISSUE \/ same_page cfg target addr = false -> out = None) /\
    buffer_ok e' /\ 3 <= buf_count e' /\ last_k e' 3 = [d; d; d].
Proof.
  intros Hd Hok Hc Hl e2 target.
  destruct (fast_path_after_three d e Hd Hok Hc Hl) as (Hf & Hok2 & Hc2 & Hl2).
  fold e2 in Hf, Hok2, Hc2, Hl2.
  exists (fst (prefetch cfg (Some d) addr mshr e2)), (snd (prefetch cfg (Some d) addr mshr e2)).
  pose proof (prefetch_keeps cfg (Some d) addr mshr e2)
    as (_ & Hp & Hs & Hpat & Hb & Hh & Hn & _).
  split; [|split; [exact Hp|split; [exact Hs|split; [exact Hpat|split; [|split; [|split; [|split]]]]]]].
  - unfold entry_operate. cbv zeta. fold e2. rewrite Hf.
    rewrite <- surjective_pairing. reflexivity.
  - intros Hge Hpg. unfold prefetch. fold target.
    replace (CONFIDENCE_ISSUE <=? confidence e2) with true by (symmetry; apply Z.leb_le; lia).
    rewrite Hpg. cbn [snd]. eexists. reflexivity.
  - intros [Hlt|Hpg]; unfold prefetch; fold target.
    + replace (CONFIDENCE_ISSUE <=? confidence e2) with false by (symmetry; apply Z.leb_gt; lia).
      reflexivity.
    + rewrite Hpg. destruct (CONFIDENCE_ISSUE <=? confidence e2); reflexivity.
  - destruct Hok2 as (H1 & H2 & H3). unfold buffer_ok. rewrite Hb, Hh, Hn. auto.
  - rewrite Hn. exact Hc2.
  - rewrite (last_k_ext e2) by assumption. exact Hl2.
Qed.

Lemma constant_stride_fast_path_witness :
  exists e' out,
    entry_operate example_config 4 64256 (Qmake 0 1) (stride_entry 1000 3) = Ok (e', out) /\
    out = Some {| pf_addr := 64512; fill_this_level := false |}.
Proof.
  destruct (constant_stride_fast_path example_config 4 64256 (Qmake 0 1) (stride_entry 1000 3))
    as (e' & out & Hr & _ & _ & _ & Hreq & _).
  - discriminate.
  - unfold buffer_ok. vm_compute. repeat split; discriminate.
  - vm_compute. discriminate.
  - reflexivity.
  - exists e', out. split; [exact Hr|].
    destruct Hreq as (level & Hout).
    + vm_compute. discriminate.
    + reflexivity.
    + rewrite Hout. rewrite Hout in Hr. clear Hout. revert Hr.
      vm_compute. intros Hr. injection Hr as _ Hlvl. rewrite Hlvl. reflexivity.
Defined.
(** ** The tracker table *)

Lemma operate_table cfg addr i mshr st st' out :
  prefetcher_cache_operate cfg addr i mshr st = Ok (st', out) ->
  (table st !! ip_hash i = None /\
   st' = allocate (ip_hash i) (cl_addr_of cfg addr) st /\ out = None) \/
  (exists e e', table st !! ip_hash i = Some e /\
     st' = {| table := <[ip_hash i := e']> (table st); fifo := fifo st |}).
Proof.
  unfold prefetcher_cache_operate. cbv zeta.
  destruct (table st !! ip_hash i) as [e|].
  - destruct (entry_operate _ _ _ _ _) as [[e' o]|]; [|discriminate].
    intros H. apply Ok_inj in H. right. exists e, e'. split; [reflexivity|congruence].
  - intros H. apply Ok_inj in H. left. split; [reflexivity|]. split; congruence.
Qed.

Lemma operate_new cfg addr i mshr st :
  table st !! ip_hash i = None ->
  prefetcher_cache_operate cfg addr i mshr st
  = Ok (allocate (ip_hash i) (cl_addr_of cfg addr) st, None).
Proof. intros H. unfold prefetcher_cache_operate. cbv zeta. rewrite H. reflexivity. Qed.

Lemma empty_state_ok : table_ok empty_state.
Proof.
  unfold table_ok, empty_state. cbn. split; [constructor|]. split; [|split].
  - intros k. rewrite lookup_empty. split; [intros H; inversion H|intros [? H]; discriminate].
  - apply map_size_empty.
  - lia.
Qed.

Lemma evict_oldest_ok st :
  table_ok st -> table_ok (evict_oldest st) /\
  (fifo st <> [] -> (length (fifo (evict_oldest st)) < length (fifo st))%nat).
Proof.
  intros (Hnd & Hdom & Hsz & Hlen). unfold evict_oldest.
  destruct (fifo st) as [|k q] eqn:Eq.
  - split; [|congruence]. unfold table_ok. rewrite Eq. auto.
  - split; [|intros _; cbn; lia].
    apply NoDup_cons in Hnd as (Hk & Hq).
    unfold table_ok. cbn. split; [exact Hq|]. split; [|split].
    + intros k'. destruct (decide (k' = k)) as [->|Hne].
      * rewrite lookup_delete_eq. split; [contradiction|intros [? H]; discriminate].
      * rewrite lookup_delete_ne by congruence. rewrite <- Hdom.
        rewrite elem_of_cons. tauto.
    + rewrite map_size_delete_Some by (apply Hdom; left).
      rewrite Hsz. reflexivity.
    + cbn in Hlen. lia.
Qed.

Lemma allocate_ok key cl st :
  table_ok st -> table st !! key = None -> table_ok (allocate key cl st).
Proof.
  intros Hok Hnone. unfold allocate.
  set (st1 := if TABLE_SIZE <=? Z.of_nat (length (fifo st)) then evict_oldest st else st).
  assert (H1 : table_ok st1 /\ table st1 !! key = None /\
               (length (fifo st1) < Z.to_nat TABLE_SIZE)%nat).
  { unfold st1. destruct (TABLE_SIZE <=? _) eqn:E.
    - apply Z.leb_le in E. destruct (evict_oldest_ok st Hok) as (Hok' & Hlt).
      split; [exact Hok'|]. split.
      + unfold evict_oldest. destruct (fifo st) as [|k q]; [exact Hnone|]. cbn.
        destruct (decide (k = key)) as [->|Hne];
          [apply lookup_delete_eq|rewrite lookup_delete_ne by exact Hne; exact Hnone].
      + destruct Hok as (_ & _ & _ & Hlen).
        assert (fifo st <> []) as Hne.
        { intros Hnil. rewrite Hnil in E. unfold TABLE_SIZE in E. cbn in E. lia. }
        specialize (Hlt Hne). lia.
    - apply Z.leb_gt in E. split; [exact Hok|]. split; [exact Hnone|]. lia. }
  destruct H1 as ((Hnd & Hdom & Hsz & Hlen) & Hn1 & Hlt).
  unfold table_ok. cbn. split; [|split; [|split]].
  - apply NoDup_app. split; [exact Hnd|]. split; [|apply NoDup_singleton].
    intros k Hk Hk'. apply list_elem_of_singleton in Hk'. subst k.
    apply Hdom in Hk. rewrite Hn1 in Hk. destruct Hk; discriminate.
  - intros k. rewrite elem_of_app, list_elem_of_singleton.
    destruct (decide (k = key)) as [->|Hne].
    + rewrite lookup_insert_eq. split; [eauto|auto].
    + rewrite lookup_insert_ne by congruence. rewrite <- Hdom. tauto.
  - rewrite map_size_insert_None by exact Hn1. rewrite length_app, Hsz. cbn. lia.
  - rewrite length_app. cbn. lia.
Qed.

Lemma operate_ok cfg addr i mshr st st' out :
  table_ok st ->
  prefetcher_cache_operate cfg addr i mshr st = Ok (st', out) ->
  table_ok st'.
Proof.
  intros Hok H. apply operate_table in H as [(Hn & -> & _)|(e & e' & He & ->)].
  - apply allocate_ok; assumption.
  - destruct Hok as (Hnd & Hdom & Hsz & Hlen).
    unfold table_ok. cbn. split; [exact Hnd|]. split; [|split; [|exact Hlen]].
    + intros k. destruct (decide (k = ip_hash i)) as [->|Hne].
      * rewrite lookup_insert_eq. rewrite Hdom, He. split; eauto.
      * rewrite lookup_insert_ne by congruence. apply Hdom.
    + rewrite map_size_insert_Some by (rewrite He; eauto). exact Hsz.
Qed.

Lemma run_ok cfg tr st st' outs :
  table_ok st -> run cfg tr st = Ok (st', outs) -> table_ok st'.
Proof.
  revert st st' outs. induction tr as [|a tr IH]; intros st st' outs Hok H.
  - cbn in H. apply Ok_inj in H. congruence.
  - cbn [run] in H.
    destruct (prefetcher_cache_operate _ _ _ _ _) as [[st1 o]|] eqn:E1; [|discriminate].
    destruct (run cfg tr st1) as [[st2 os]|] eqn:E2; [|discriminate].
    apply Ok_inj in H. assert (st2 = st') by congruence. subst st2.
    eapply IH; [|exact E2]. eapply operate_ok; eauto.
Qed.

(** The queue after an access: a new key goes to the back, and the front
    leaves if the table was full; a hit leaves the queue as it is. *)
Lemma operate_fifo cfg addr i mshr st st' out :
  table_ok st ->
  prefetcher_cache_operate cfg addr i mshr st = Ok (st', out) ->
  fifo st' =
    if decide (ip_hash i ∈ fifo st) then fifo st
    else if decide (length (fifo st) < Z.to_nat TABLE_SIZE)%nat
         then fifo st ++ [ip_hash i]
         else tail (fifo st) ++ [ip_hash i].
Proof.
  intros (Hnd & Hdom & Hsz & Hlen) H.
  apply operate_table in H as [(Hn & -> & _)|(e & e' & He & ->)].
  - destruct (decide (ip_hash i ∈ fifo st)) as [Hin|_].
    { apply Hdom in Hin. rewrite Hn in Hin. destruct Hin; discriminate. }
    unfold allocate. cbn.
    destruct (decide (length (fifo st) < Z.to_nat TABLE_SIZE)%nat) as [Hlt|Hge].
    + replace (TABLE_SIZE <=? Z.of_nat (length (fifo st))) with false
        by (symmetry; apply Z.leb_gt; unfold TABLE_SIZE in *; lia).
      reflexivity.
    + replace (TABLE_SIZE <=? Z.of_nat (length (fifo st))) with true
        by (symmetry; apply Z.leb_le; unfold TABLE_SIZE in *; lia).
      unfold evict_oldest. destruct (fifo st) eqn:Eq; cbn; rewrite ?Eq; reflexivity.
  - cbn. destruct (decide (ip_hash i ∈ fifo st)) as [|Hnin]; [reflexivity|].
    exfalso. apply Hnin, Hdom. rewrite He. eauto.
Qed.

Lemma first_seen_from_length {A : Type} `{EqDecision A} (l seen : list A) :
  (length seen <= length (first_seen_from seen l))%nat.
Proof.
  revert seen. induction l as [|k l IH]; intros seen; cbn; [lia|].
  destruct (decide (k ∈ seen)); [apply IH|].
  etransitivity; [|apply IH]. rewrite length_app. cbn. lia.
Qed.

Lemma elem_of_app_skip {A : Type} (x k : A) (seen l : list A) :
  x ∈ seen ++ l -> x ∈ seen ++ k :: l.
Proof.
  intros H. apply elem_of_app in H as [H|H]; apply elem_of_app;
    [left; exact H|right; right; exact H].
Qed.

Lemma elem_of_snoc_app {A : Type} (x k : A) (seen l : list A) :
  x ∈ (seen ++ [k]) ++ l -> x ∈ seen ++ k :: l.
Proof. rewrite <- app_assoc. cbn. auto. Qed.

Lemma first_seen_from_fmap {A B : Type} `{EqDecision A} `{EqDecision B}
    (f : A -> B) (l seen : list A) :
  (forall x y, x ∈ seen ++ l -> y ∈ seen ++ l -> f x = f y -> x = y) ->
  first_seen_from (f <$> seen) (f <$> l) = f <$> first_seen_from seen l.
Proof.
  revert seen. induction l as [|k l IH]; intros seen Hinj; cbn; [reflexivity|].
  assert (Hiff : f k ∈ f <$> seen <-> k ∈ seen).
  { split; [|apply list_elem_of_fmap_2].
    intros Hin. apply list_elem_of_fmap in Hin as (y & Hy & Hin).
    assert (k = y) as ->; [|exact Hin].
    apply Hinj; [|apply elem_of_app; left; exact Hin|exact Hy].
    apply elem_of_app. right. left. }
  destruct (decide (f k ∈ f <$> seen)) as [Hin|Hnin];
    destruct (decide (k ∈ seen)) as [Hin'|Hnin']; try tauto.
  - apply IH. intros x y Hx Hy. apply Hinj; apply elem_of_app_skip; assumption.
  - change [f k] with (f <$> [k]). rewrite <- fmap_app. apply IH.
    intros x y Hx Hy. apply Hinj; apply elem_of_snoc_app; assumption.
Qed.

(** As long as no more keys have been seen than the table holds, the queue
    is the list of the keys in the order of their first access. *)
Lemma run_fifo cfg tr st st' outs :
  table_ok st -> run cfg tr st = Ok (st', outs) ->
  let ks := first_seen_from (fifo st) ((fun a => ip_hash (a_ip a)) <$> tr) in
  (length ks <= Z.to_nat TABLE_SIZE)%nat -> fifo st' = ks.
Proof.
  revert st st' outs. induction tr as [|a tr IH]; intros st st' outs Hok H ks Hlen.
  - cbn in H. apply Ok_inj in H. subst ks. cbn. congruence.
  - cbn [run] in H.
    destruct (prefetcher_cache_operate _ _ _ _ _) as [[st1 o]|] eqn:E1; [|discriminate].
    destruct (run cfg tr st1) as [[st2 os]|] eqn:E2; [|discriminate].
    apply Ok_inj in H. assert (st2 = st') by congruence. subst st2.
    pose proof (operate_ok _ _ _ _ _ _ _ Hok E1) as Hok1.
    pose proof (operate_fifo _ _ _ _ _ _ _ Hok E1) as Hf.
    subst ks. cbn [fmap list_fmap first_seen_from fold_left] in Hlen |- *.
    fold (first_seen_from
            (if decide (ip_hash (a_ip a) ∈ fifo st) then fifo st
             else fifo st ++ [ip_hash (a_ip a)])
            ((fun a => ip_hash (a_ip a)) <$> tr)) in Hlen |- *.
    assert (Hf1 : fifo st1 = if decide (ip_hash (a_ip a) ∈ fifo st) then fifo st
                             else fifo st ++ [ip_hash (a_ip a)]).
    { rewrite Hf. destruct (decide (ip_hash (a_ip a) ∈ fifo st)) as [|Hnin]; [reflexivity|].
      destruct (decide (length (fifo st) < Z.to_nat TABLE_SIZE)%nat) as [|Hge]; [reflexivity|].
      exfalso.
      pose proof (first_seen_from_length ((fun a => ip_hash (a_ip a)) <$> tr)
                    (fifo st ++ [ip_hash (a_ip a)])) as Hmono.
      rewrite length_app in Hmono. cbn in Hmono. lia. }
    rewrite <- Hf1 in Hlen |- *.
    eapply IH; eauto.
Qed.

(** C5: the table never holds more than 256 entries; and when the accesses
    so far came from exactly 256 distinct IPs, in whatever order they were
    accessed again, an access of a further IP is accepted without a
    request, drops the entry of the IP that was accessed first of all,
    keeps the entries of the other 255 as they are, and adds the new one,
    at the back of the queue. *)
Theorem fifo_eviction_of_first_ip cfg tr st outs :
  run cfg tr empty_state = Ok (st, outs) ->
  (size (table st) <= 256)%nat /\
  forall a,
    Forall (fun b => 0 <= a_ip b) (a :: tr) ->
    let ips := first_seen (a_ip <$> tr) in
    length ips = 256%nat -> a_ip a ∉ ips ->
    exists st',
      prefetcher_cache_operate cfg (a_addr a) (a_ip a) (a_mshr a) st = Ok (st', None) /\
      fifo st = ip_hash <$> ips /\
      fifo st' = ip_hash <$> (tail ips ++ [a_ip a]) /\
      (forall i, i ∈ ips -> is_Some (table st !! ip_hash i)) /\
      (forall i0, head ips = Some i0 -> table st' !! ip_hash i0 = None) /\
      (forall i, i ∈ tail ips -> table st' !! ip_hash i = table st !! ip_hash i) /\
      is_Some (table st' !! ip_hash (a_ip a)) /\
      size (table st') = 256%nat.
Proof.
  intros Hrun.
  pose proof (run_ok _ _ _ _ _ empty_state_ok Hrun) as Hok.
  pose proof Hok as (Hnd & Hdom & Hsz & Hlen).
  split; [rewrite Hsz; exact Hlen|].
  intros a Hnn ips Hips Hnew.
  apply Forall_cons in Hnn as (Ha & Htr).
  assert (Hinj : forall x y, x ∈ [] ++ (a_ip <$> tr) -> y ∈ [] ++ (a_ip <$> tr) ->
                   ip_hash x = ip_hash y -> x = y).
  { cbn. intros x y Hx Hy. apply ip_hash_inj.
    - apply list_elem_of_fmap in Hx as (b & -> & Hb).
      rewrite Forall_forall in Htr. apply Htr, Hb.
    - apply list_elem_of_fmap in Hy as (b & -> & Hb).
      rewrite Forall_forall in Htr. apply Htr, Hb. }
  assert (Hks : first_seen_from [] ((fun b => ip_hash (a_ip b)) <$> tr) = ip_hash <$> ips).
  { change ((fun b => ip_hash (a_ip b)) <$> tr) with ((ip_hash ∘ a_ip) <$> tr).
    rewrite (list_fmap_compose a_ip ip_hash tr).
    apply (first_seen_from_fmap ip_hash (a_ip <$> tr) [] Hinj). }
  assert (Hfifo : fifo st = ip_hash <$> ips).
  { rewrite <- Hks. apply (run_fifo cfg tr empty_state st outs empty_state_ok Hrun).
    cbn [fifo empty_state]. rewrite Hks, length_fmap, Hips. reflexivity. }
  assert (Hnonneg : forall i, i ∈ ips -> 0 <= i).
  { intros i Hi. assert (Hin : ip_hash i ∈ fifo st) by (rewrite Hfifo; apply list_elem_of_fmap_2, Hi).
    clear Hks Hfifo Hips Hnew. subst ips. unfold first_seen in Hi.
    assert (Hgen : forall l seen, (forall x, x ∈ seen ++ l -> 0 <= x) ->
                     forall x, x ∈ first_seen_from seen l -> 0 <= x).
    { induction l as [|k l IHl]; intros seen Hall x Hx; cbn in Hx.
      - apply Hall. rewrite app_nil_r. exact Hx.
      - destruct (decide (k ∈ seen)).
        + eapply IHl; [|exact Hx]. intros y Hy. apply Hall, elem_of_app_skip, Hy.
        + eapply IHl; [|exact Hx]. intros y Hy. apply Hall, elem_of_snoc_app, Hy. }
    eapply Hgen; [|exact Hi]. cbn. intros x Hx.
    apply list_elem_of_fmap in Hx as (b & -> & Hb).
    rewrite Forall_forall in Htr. apply Htr, Hb. }
  assert (Hnone : table st !! ip_hash (a_ip a) = None).
  { destruct (table st !! ip_hash (a_ip a)) eqn:E; [exfalso|reflexivity].
    assert (Hin : ip_hash (a_ip a) ∈ fifo st) by (apply Hdom; rewrite E; eauto).
    rewrite Hfifo in Hin. apply list_elem_of_fmap in Hin as (y & Hy & Hin).
    apply ip_hash_inj in Hy; [subst y; contradiction|exact Ha|apply Hnonneg, Hin]. }
  assert (Hndips : NoDup ips).
  { apply (NoDup_fmap_1 ip_hash). rewrite <- Hfifo. exact Hnd. }
  destruct ips as [|i0 rest] eqn:Eips; [discriminate Hips|].
  exists (allocate (ip_hash (a_ip a)) (cl_addr_of cfg (a_addr a)) st).
  split; [apply operate_new, Hnone|].
  split; [exact Hfifo|].
  assert (Hfull : (TABLE_SIZE <=? Z.of_nat (length (fifo st))) = true).
  { apply Z.leb_le. rewrite Hfifo, length_fmap, Hips. unfold TABLE_SIZE. lia. }
  unfold allocate. rewrite Hfull. unfold evict_oldest. rewrite Hfifo.
  cbn [fmap list_fmap fifo table tail].
  apply NoDup_cons in Hndips as (Hi0 & Hrest).
  assert (Hne0 : ip_hash i0 <> ip_hash (a_ip a)).
  { intros Heq. apply ip_hash_inj in Heq; [|apply Hnonneg; left|exact Ha].
    apply Hnew. subst i0. left. }
  split; [rewrite fmap_app; reflexivity|].
  split.
  { intros i Hi. apply Hdom. rewrite Hfifo. apply (list_elem_of_fmap_2 ip_hash). exact Hi. }
  split; [|split; [|split]].
  - intros i Hhd. cbn in Hhd. injection Hhd as <-.
    rewrite lookup_insert_ne by congruence. apply lookup_delete_eq.
  - intros i Hi.
    assert (ip_hash (a_ip a) <> ip_hash i).
    { intros Heq. apply ip_hash_inj in Heq; [|exact Ha|apply Hnonneg; right; exact Hi].
      apply Hnew. rewrite Heq. right. exact Hi. }
    assert (ip_hash i0 <> ip_hash i).
    { intros Heq. apply ip_hash_inj in Heq;
        [|apply Hnonneg; left|apply Hnonneg; right; exact Hi].
      subst i0. contradiction. }
    rewrite lookup_insert_ne by assumption. rewrite lookup_delete_ne by assumption.
    reflexivity.
  - rewrite lookup_insert_eq. eauto.
  - rewrite map_size_insert_None.
    + rewrite map_size_delete_Some by (apply Hdom; rewrite Hfifo; left).
      rewrite Hsz, Hfifo, length_fmap, Hips. reflexivity.
    + rewrite lookup_delete_ne by exact Hne0. exact Hnone.
Qed.

Lemma fifo_eviction_of_first_ip_witness :
  let tr := many_ips ++ [ {| a_addr := 0; a_ip := 0; a_mshr := Qmake 0 1 |};
                          {| a_addr := 64; a_ip := 0; a_mshr := Qmake 0 1 |} ] in
  exists st outs st',
    run example_config tr empty_state = Ok (st, outs) /\
    prefetcher_cache_operate example_config 0 256 (Qmake 0 1) st = Ok (st', None) /\
    table st' !! ip_hash 0 = None /\
    table st' !! ip_hash 1 = table st !! ip_hash 1.
Proof.
  intros tr.
  assert (Hrun : exists st outs, run example_config tr empty_state = Ok (st, outs)).
  { vm_compute. eexists _, _. reflexivity. }
  destruct Hrun as (st & outs & Hrun). exists st, outs.
  destruct (fifo_eviction_of_first_ip example_config tr st outs Hrun) as (_ & Hev).
  destruct (Hev {| a_addr := 0; a_ip := 256; a_mshr := Qmake 0 1 |})
    as (st' & Hop & _ & _ & _ & Hfirst & Hrest & _).
  - apply Forall_forall. intros b Hb. revert b Hb. apply Forall_forall.
    vm_compute. repeat (constructor; [discriminate|]). constructor.
  - vm_compute. reflexivity.
  - vm_compute. intros Hin. apply list_elem_of_In in Hin. revert Hin.
    cbn. intuition discriminate.
  - exists st'. split; [exact Hrun|]. split; [exact Hop|]. split.
    + apply Hfirst. vm_compute. reflexivity.
    + apply Hrest. apply list_elem_of_In. vm_compute. left. reflexivity.
Defined.
(** ** The hash of the IP *)

(** C10, as the code has it: the key of an IP is
    [ip ^ (ip >> 2) ^ (ip >> 5)], and on 64-bit IPs this hash is one to one:
    two distinct IPs have distinct keys, so the access of one IP leaves the
    entry of the other alone, unless it evicts it. *)
Theorem distinct_ips_distinct_entries cfg addr i j mshr st st' out :
  is_u64 i -> is_u64 j -> i <> j ->
  prefetcher_cache_operate cfg addr j mshr st = Ok (st', out) ->
  ip_hash i = Z.lxor (Z.lxor i (Z.shiftr i 2)) (Z.shiftr i 5) /\
  ip_hash i <> ip_hash j /\
  (table st' !! ip_hash i = table st !! ip_hash i \/ table st' !! ip_hash i = None).
Proof.
  intros (Hi & _) (Hj & _) Hne H.
  assert (Hk : ip_hash i <> ip_hash j).
  { intros Heq. apply Hne. apply ip_hash_inj; assumption. }
  split; [reflexivity|]. split; [exact Hk|].
  apply operate_table in H as [(Hn & -> & _)|(e & e' & He & ->)].
  - unfold allocate. cbn [table].
    rewrite lookup_insert_ne by congruence.
    destruct (TABLE_SIZE <=? _); [|left; reflexivity].
    unfold evict_oldest. destruct (fifo st) as [|k q]; [left; reflexivity|]. cbn [table].
    destruct (decide (k = ip_hash i)) as [->|Hk'].
    + right. apply lookup_delete_eq.
    + left. apply lookup_delete_ne. exact Hk'.
  - cbn [table]. left. apply lookup_insert_ne. congruence.
Qed.

Lemma distinct_ips_distinct_entries_witness :
  ip_hash 77 <> ip_hash 78.
Proof.
  assert (H1 : is_u64 77) by (unfold is_u64; vm_compute; split; [discriminate|reflexivity]).
  assert (H2 : is_u64 78) by (unfold is_u64; vm_compute; split; [discriminate|reflexivity]).
  assert (H3 : 77 <> 78) by discriminate.
  assert (H4 : exists st', prefetcher_cache_operate example_config 64256 78 (Qmake 0 1)
                             (stride_state 1000 3) = Ok (st', None))
    by (vm_compute; eexists; reflexivity).
  destruct H4 as (st' & H4).
  exact (proj1 (proj2 (distinct_ips_distinct_entries _ _ _ _ _ _ _ _ H1 H2 H3 H4))).
Defined.

(** C10 as stated fails: no two distinct 64-bit IPs have the same key. *)
Lemma no_two_ips_share_a_key :
  ~ exists i j, is_u64 i /\ is_u64 j /\ i <> j /\ ip_hash i = ip_hash j.
Proof.
  intros (i & j & (Hi & _) & (Hj & _) & Hne & Heq).
  apply Hne. apply ip_hash_inj; assumption.
Qed.
(** ** A stream of deltas on a fresh entry *)

Lemma window_snoc (ds : list Z) (n k : nat) d :
  ds !! n = Some d -> (k <= n)%nat ->
  window ds (S n) (S k) = window ds n k ++ [d].
Proof.
  intros Hd Hk. unfold window.
  rewrite (take_S_r ds n d Hd).
  assert (Hlen : length (take n ds) = n).
  { rewrite length_take. apply lookup_lt_Some in Hd. lia. }
  replace (S n - S k)%nat with (n - k)%nat by lia.
  rewrite drop_app_le by lia. reflexivity.
Qed.

Lemma window_zero (ds : list Z) (n : nat) :
  (n <= length ds)%nat -> window ds n 0 = [].
Proof.
  intros Hn. unfold window. rewrite Nat.sub_0_r.
  apply drop_ge. rewrite length_take. lia.
Qed.

Lemma last_k_zero e : last_k e 0 = [].
Proof. reflexivity. Qed.

Lemma last_k_length e k : 0 <= k -> length (last_k e k) = Z.to_nat k.
Proof. intros Hk. unfold last_k. rewrite length_fmap, length_seqZ. reflexivity. Qed.

Lemma fed_new ds key cl : fed ds 0 (new_entry key cl).
Proof.
  unfold fed, buffer_ok. cbn. repeat split; try reflexivity; try discriminate.
  intros k Hk _. assert (k = 0%nat) as -> by lia. reflexivity.
Qed.

(** Taking one more delta. *)
Lemma fed_push ds n e d :
  fed ds n e -> ds !! n = Some d ->
  let e1 := count_access (push_delta d e) in
  buffer_ok e1 /\
  buf_count e1 = Z.min (Z.of_nat (S n)) BUF_SIZE /\
  accesses e1 = (Z.of_nat (S n) + 1) mod ANALYSIS_INTERVAL /\
  (forall k : nat, (k <= S n)%nat -> (k <= 24)%nat ->
     last_k e1 (Z.of_nat k) = window ds (S n) k) /\
  confidence_check d e1 = e1.
Proof.
  intros (Hok & Hc & Ha & Hconf & Hhp & Hw) Hd e1.
  pose proof (push_delta_ok d e Hok) as Hok1.
  unfold BUF_SIZE, ANALYSIS_INTERVAL in *.
  split; [exact Hok1|]. split; [|split; [|split]].
  - change (buf_count e1) with (Z.min (buf_count e + 1) 24). rewrite Hc. lia.
  - change (accesses e1) with ((accesses e + 1) mod 4). rewrite Ha.
    rewrite Zplus_mod_idemp_l. f_equal. lia.
  - intros k Hk Hk24.
    rewrite (last_k_ext (push_delta d e)) by reflexivity.
    destruct k as [|k].
    + rewrite window_zero by (apply lookup_lt_Some in Hd; lia). reflexivity.
    + replace (Z.of_nat (S k)) with (Z.of_nat k + 1) by lia.
      rewrite last_k_push by (unfold BUF_SIZE; auto; lia).
      rewrite Hw by lia. symmetry. apply window_snoc; [exact Hd|lia].
  - apply confidence_check_skipped. exact Hhp.
Qed.

(** An access on which no analysis is due changes the buffer only. *)
Lemma fed_idle cfg ds n e d addr mshr :
  fed ds n e -> ds !! n = Some d ->
  (Z.of_nat n + 2) mod 4 <> 0 \/ (n + 1 < 24)%nat ->
  exists e', entry_operate cfg d addr mshr e = Ok (e', None) /\
    fed ds (S n) e' /\
    period e' = period e /\ stability e' = stability e /\ pattern e' = pattern e.
Proof.
  intros Hfed Hd Hidle.
  destruct (fed_push ds n e d Hfed Hd) as (Hok1 & Hc1 & Ha1 & Hw1 & Hchk).
  destruct Hfed as (_ & _ & _ & Hconf & Hhp & _).
  set (e1 := count_access (push_delta d e)) in *.
  assert (Hdue : analysis_due e1 = false).
  { unfold analysis_due. rewrite Ha1, Hc1. unfold ANALYSIS_INTERVAL, BUF_SIZE.
    destruct Hidle as [Hm|Hlt].
    - replace (Z.of_nat (S n) + 1) with (Z.of_nat n + 2) by lia.
      apply Z.eqb_neq in Hm. rewrite Hm. reflexivity.
    - replace (24 <=? Z.min (Z.of_nat (S n)) 24) with false
        by (symmetry; apply Z.leb_gt; lia).
      apply andb_false_r. }
  assert (Hcold : confidence e1 < CONFIDENCE_ISSUE).
  { change (confidence e1) with (confidence e). rewrite Hconf. reflexivity. }
  exists e1.
  split.
  - unfold entry_operate. cbv zeta. fold e1. rewrite Hchk, Hdue.
    destruct (fast_path_ready e1);
      rewrite prefetch_withheld by (right; exact Hcold); reflexivity.
  - split; [|repeat split; reflexivity].
    unfold fed. split; [exact Hok1|]. split; [exact Hc1|]. split; [exact Ha1|].
    split; [exact Hconf|]. split; [exact Hhp|]. exact Hw1.
Qed.

(** What an analysis above the threshold leaves behind. *)
Lemma fourier_analysis_above cfg e P pw :
  detect e = (P, pw) -> Qle_bool pw (POWER_THRESHOLD cfg) = false ->
  let e' := fourier_analysis cfg e in
  period e' = P /\
  stability e' = (if P =? period e then wrap_u8 (stability e + 1) else 1) /\
  (STABILITY_REQUIRED <= stability e' ->
   pattern e' = last_k e P ++ drop (Z.to_nat P) (pattern e) /\ phase e' = 0) /\
  (stability e' < STABILITY_REQUIRED -> pattern e' = pattern e /\ phase e' = phase e).
Proof.
  intros Hdet Hthr. cbv zeta. unfold fourier_analysis. cbv zeta.
  rewrite Hdet. cbn [fst snd]. rewrite Hthr.
  destruct (P =? period e) eqn:EP.
  - apply Z.eqb_eq in EP. subst P.
    cbn [stability set_period].
    destruct (STABILITY_REQUIRED <=? wrap_u8 (stability e + 1)) eqn:ES.
    + apply Z.leb_le in ES.
      split; [reflexivity|]. split; [reflexivity|]. split; [intros _; split; reflexivity|].
      cbn [stability extract_pattern set_pattern set_period]. lia.
    + apply Z.leb_gt in ES.
      split; [reflexivity|]. split; [reflexivity|]. split; [|intros _; split; reflexivity].
      cbn [stability set_period]. lia.
  - cbn [stability set_period].
    change (STABILITY_REQUIRED <=? 1) with false. cbv iota.
    split; [reflexivity|]. split; [reflexivity|]. split; [|intros _; split; reflexivity].
    cbn [stability set_period]. unfold STABILITY_REQUIRED. lia.
Qed.

Lemma entry_operate_cold_round cfg d addr mshr e :
  let e1 := count_access (push_delta d e) in
  has_prediction e = false -> confidence e < CONFIDENCE_ISSUE ->
  fast_path_ready e1 = false -> analysis_due e1 = true ->
  period (fourier_analysis cfg e1) <> 0 ->
  entry_operate cfg d addr mshr e = Ok (fourier_analysis cfg e1, None).
Proof.
  intros e1 Hhp Hc Hf Hdue Hp.
  assert (Hchk : confidence_check d e1 = e1) by (apply confidence_check_skipped; exact Hhp).
  pose proof (fourier_analysis_keeps cfg e1) as (Kc & _).
  unfold entry_operate. cbv zeta. fold e1. rewrite Hchk, Hf, Hdue.
  unfold replay_delta. apply Z.eqb_neq in Hp. rewrite Hp.
  rewrite prefetch_withheld by (right; rewrite Kc; exact Hc).
  reflexivity.
Qed.

(** An access on which an analysis runs that finds [P] above the
    threshold. *)
Lemma fed_round cfg ds n e d addr mshr P :
  fed ds n e -> ds !! n = Some d ->
  (Z.of_nat n + 2) mod 4 = 0 -> (24 <= n + 1)%nat ->
  spectral_round cfg ds (S n) P ->
  exists e', entry_operate cfg d addr mshr e = Ok (e', None) /\
    fed ds (S n) e' /\
    period e' = P /\
    stability e' = (if P =? period e then wrap_u8 (stability e + 1) else 1) /\
    (STABILITY_REQUIRED <= stability e' ->
     take (Z.to_nat P) (pattern e') = window ds (S n) (Z.to_nat P)).
Proof.
  intros Hfed Hd Hm Hfull (Hnf & HP & Hthr).
  destruct (fed_push ds n e d Hfed Hd) as (Hok1 & Hc1 & Ha1 & Hw1 & Hchk).
  destruct Hfed as (_ & _ & _ & Hconf & Hhp & _).
  assert (Hdue : analysis_due (count_access (push_delta d e)) = true).
  { unfold analysis_due. rewrite Ha1, Hc1. unfold ANALYSIS_INTERVAL, BUF_SIZE.
    replace (Z.of_nat (S n) + 1) with (Z.of_nat n + 2) by lia. rewrite Hm.
    apply Z.leb_le. lia. }
  assert (Hfast : fast_path_ready (count_access (push_delta d e)) = false).
  { unfold fast_path_ready.
    pose proof (Hw1 4%nat ltac:(lia) ltac:(lia)) as H4.
    change (Z.of_nat 4) with 4 in H4. rewrite H4, Hnf. apply andb_false_r. }
  assert (Hdet : detect (count_access (push_delta d e))
                 = detect_with (window_power (window ds (S n) 24))).
  { unfold detect. pose proof (Hw1 24%nat ltac:(lia) ltac:(lia)) as H24.
    change (Z.of_nat 24) with BUF_SIZE in H24. rewrite H24. reflexivity. }
  assert (Hcand : P ∈ candidate_periods).
  { rewrite <- HP, <- Hdet. apply detect_candidate. }
  assert (HPr : 2 <= P <= 12).
  { unfold candidate_periods in Hcand.
    repeat (apply elem_of_cons in Hcand as [->|Hcand]; [lia|]). inversion Hcand. }
  rewrite (surjective_pairing (detect_with _)) in Hdet. rewrite HP in Hdet.
  destruct (fourier_analysis_above cfg _ _ _ Hdet Hthr) as (Hp3 & Hs3 & Hpat3 & _).
  pose proof (fourier_analysis_keeps cfg (count_access (push_delta d e)))
    as (Kc & Kh & Kl & Kb & Khd & Kn & Ka).
  assert (Hop : entry_operate cfg d addr mshr e
                = Ok (fourier_analysis cfg (count_access (push_delta d e)), None)).
  { apply entry_operate_cold_round.
    - exact Hhp.
    - rewrite Hconf. reflexivity.
    - exact Hfast.
    - exact Hdue.
    - rewrite Hp3. lia. }
  revert Hp3 Hs3 Hpat3 Kc Kh Kl Kb Khd Kn Ka Hop.
  generalize (fourier_analysis cfg (count_access (push_delta d e))).
  intros e3 Hp3 Hs3 Hpat3 Kc Kh Kl Kb Khd Kn Ka Hop.
  exists e3.
  split; [exact Hop|].
  split.
  { unfold fed. split.
    { destruct Hok1 as (H1 & H2 & H3). unfold buffer_ok. rewrite Kb, Khd, Kn. auto. }
    split; [rewrite Kn; exact Hc1|].
    split; [rewrite Ka; exact Ha1|].
    split; [rewrite Kc; exact Hconf|].
    split; [rewrite Kh; exact Hhp|].
    intros k Hk Hk24.
    rewrite (last_k_ext (count_access (push_delta d e)) e3 _ Kb Khd).
    apply Hw1; assumption. }
  split; [exact Hp3|]. split; [exact Hs3|].
  intros Hst. destruct (Hpat3 Hst) as (Hpat & _). rewrite Hpat.
  rewrite take_app_length' by (rewrite last_k_length; lia).
  rewrite <- (Z2Nat.id P) at 1 by lia.
  apply Hw1; lia.
Qed.

Lemma deltas_of_lookup (evs : list event) (n : nat) d addr mshr :
  evs !! n = Some (d, addr, mshr) -> deltas_of evs !! n = Some d.
Proof.
  intros H. unfold deltas_of. apply list_lookup_fmap_Some.
  exists (d, addr, mshr). split; [reflexivity|exact H].
Qed.

(** C1, as the code has it: take a fresh entry and any stream of 35 deltas
    (36 accesses).  If each of the three analyses that are due, after the
    27th, 31st and 35th delta, is not pre-empted by the fast path and finds
    the period [P] with a power above the threshold, then after the 36th
    access the period is [P], the stability is 3 and the first [P] slots of
    the pattern are the last [P] deltas, oldest first. *)
Theorem three_rounds_lock_period cfg key cl (evs : list event) P :
  length evs = 35%nat ->
  spectral_round cfg (deltas_of evs) 27 P ->
  spectral_round cfg (deltas_of evs) 31 P ->
  spectral_round cfg (deltas_of evs) 35 P ->
  exists e',
    entry_run cfg evs (new_entry key cl) = Ok e' /\
    period e' = P /\ stability e' = 3 /\
    take (Z.to_nat P) (pattern e') = window (deltas_of evs) 35 (Z.to_nat P).
Proof.
  intros Hlen R27 R31 R35.
  set (ds := deltas_of evs) in *.
  (* the state of the lock after n deltas *)
  set (lock := fun (n : nat) (e : fourier_entry) =>
         ((n < 27)%nat -> period e = 0 /\ stability e = 0) /\
         ((27 <= n < 31)%nat -> period e = P /\ stability e = 1) /\
         ((31 <= n < 35)%nat -> period e = P /\ stability e = 2) /\
         ((n = 35)%nat -> period e = P /\ stability e = 3 /\
            take (Z.to_nat P) (pattern e) = window ds 35 (Z.to_nat P))).
  assert (HP : P <> 0).
  { destruct R27 as (_ & HP & _). rewrite <- HP.
    pose proof (detect_with_first_max (window_power (window ds 27 24)))
      as (_ & l1 & l2 & Hv & _).
    assert (Hin : fst (detect_with (window_power (window ds 27 24))) ∈ candidate_periods).
    { rewrite Hv. apply elem_of_app. right. left. }
    revert Hin. generalize (fst (detect_with (window_power (window ds 27 24)))).
    intros z Hin. unfold candidate_periods in Hin.
    repeat (apply elem_of_cons in Hin as [->|Hin]; [lia|]). inversion Hin. }
  assert (Hstep : forall m n e, (n + m = 35)%nat -> fed ds n e -> lock n e ->
            exists e', entry_run cfg (drop n evs) e = Ok e' /\ lock 35%nat e').
  { induction m as [|m IH]; intros n e Hnm Hfed Hlock.
    - assert (n = 35%nat) as -> by lia.
      rewrite drop_ge by lia. exists e. split; [reflexivity|exact Hlock].
    - destruct (evs !! n) as [[[d addr] mshr]|] eqn:Ev;
        [|apply lookup_ge_None in Ev; lia].
      rewrite (drop_S evs _ n Ev). cbn [entry_run].
      pose proof (deltas_of_lookup evs n d addr mshr Ev) as Hd. fold ds in Hd.
      destruct Hlock as (L1 & L2 & L3 & _).
      assert (Hcase : S n = 27%nat \/ S n = 31%nat \/ S n = 35%nat \/
                      ((Z.of_nat n + 2) mod 4 <> 0 \/ (n + 1 < 24)%nat)).
      { destruct (decide (n + 1 < 24)%nat); [right; right; right; right; assumption|].
        destruct (decide ((Z.of_nat n + 2) mod 4 = 0)) as [Hmod|];
          [|right; right; right; left; assumption].
        assert (Hq : exists q, Z.of_nat n + 2 = 4 * q).
        { exists ((Z.of_nat n + 2) / 4). apply Z_div_exact_full_2; [lia|exact Hmod]. }
        destruct Hq as (q & Hq). lia. }
      destruct Hcase as [E|[E|[E|Hidle]]].
      + (* the first analysis: the period is set *)
        destruct (fed_round cfg ds n e d addr mshr P Hfed Hd) as (e' & Hop & Hfed' & Hp & Hs & _);
          [injection E as ->; reflexivity|lia|rewrite E; exact R27|].
        rewrite Hop. apply (IH (S n) e'); [lia|exact Hfed'|].
        destruct (L1 ltac:(lia)) as (Lp & Ls). rewrite Lp in Hs.
        replace (P =? 0) with false in Hs by (symmetry; apply Z.eqb_neq; exact HP).
        unfold lock. repeat split; intros; try lia; assumption.
      + (* the second analysis agrees *)
        destruct (fed_round cfg ds n e d addr mshr P Hfed Hd) as (e' & Hop & Hfed' & Hp & Hs & _);
          [injection E as ->; reflexivity|lia|rewrite E; exact R31|].
        rewrite Hop. apply (IH (S n) e'); [lia|exact Hfed'|].
        destruct (L2 ltac:(lia)) as (Lp & Ls). rewrite Lp, Ls, Z.eqb_refl in Hs.
        unfold lock. repeat split; intros; try lia; assumption.
      + (* the third analysis agrees: the pattern is extracted *)
        destruct (fed_round cfg ds n e d addr mshr P Hfed Hd) as (e' & Hop & Hfed' & Hp & Hs & Hpat);
          [injection E as ->; reflexivity|lia|rewrite E; exact R35|].
        rewrite Hop. apply (IH (S n) e'); [lia|exact Hfed'|].
        destruct (L3 ltac:(lia)) as (Lp & Ls). rewrite Lp, Ls, Z.eqb_refl in Hs.
        change (wrap_u8 (2 + 1)) with 3 in Hs.
        unfold lock. repeat split; intros; try lia; try assumption.
        rewrite <- E. apply Hpat. rewrite Hs. reflexivity.
      + destruct (fed_idle cfg ds n e d addr mshr Hfed Hd Hidle)
          as (e' & Hop & Hfed' & Hp & Hs & Hpat).
        rewrite Hop. apply (IH (S n) e'); [lia|exact Hfed'|].
        assert (S n <> 27%nat /\ S n <> 31%nat /\ S n <> 35%nat) as (N1 & N2 & N3).
        { destruct Hidle as [Hm|Hlt]; [|lia].
          repeat split; intros Heq; apply Hm; injection Heq as ->; reflexivity. }
        unfold lock. rewrite Hp, Hs. split; [|split; [|split]]; intros Hn.
        * apply L1. lia.
        * apply L2. lia.
        * apply L3. lia.
        * lia. }
  destruct (Hstep 35%nat 0%nat (new_entry key cl)) as (e' & Hrun & _ & _ & _ & L);
    [reflexivity|apply fed_new| |].
  - unfold lock. cbn. repeat split; intros; lia.
  - exists e'. rewrite drop_0 in Hrun. split; [exact Hrun|]. apply L. reflexivity.
Qed.

Lemma three_rounds_lock_period_witness :
  exists e',
    entry_run example_config alternating_events (new_entry (ip_hash 77) 1000) = Ok e' /\
    period e' = 2 /\ stability e' = 3 /\
    take (Z.to_nat 2) (pattern e') = window (deltas_of alternating_events) 35 (Z.to_nat 2).
Proof.
  apply (three_rounds_lock_period example_config (ip_hash 77) 1000 alternating_events 2).
  - reflexivity.
  - vm_compute. repeat split; reflexivity.
  - vm_compute. repeat split; reflexivity.
  - vm_compute. repeat split; reflexivity.
Defined.

(** C1 as stated fails.  A stream of period 12 whose runs of four equal
    deltas end where the analyses are due keeps the fast path ready at
    every analysis: after 48 accesses the period is still 0.  And on the
    stream 3, 0, 3, 1 of period 4 the analyses find period 2, where the
    power is greatest. *)
Lemma periodic_stream_not_locked :
  (period <$> entry_after
     (run example_config
        (stream 77 1000 (take 47 (cycle 4 [1; 1; 1; 2; 2; 2; 2; 3; 3; 3; 3; 1])))
        empty_state) 77) = Some 0 /\
  (period <$> entry_after
     (run example_config (stream 77 1000 (take 35 (cycle 9 [3; 0; 3; 1]))) empty_state) 77)
  = Some 2.
Proof. split; vm_compute; reflexivity. Qed.
(** ** Further properties of the steps *)

(** X1: appending a delta to the circular buffer.  The [k+1] most recent
    deltas are the [k] most recent ones of before followed by the new one;
    the count goes up by one until it stays at 24, and the head stays within
    the array. *)
Theorem push_delta_appends d e k :
  buffer_ok e -> 0 <= k < BUF_SIZE ->
  last_k (push_delta d e) (k + 1) = last_k e k ++ [d] /\
  buf_count (push_delta d e) = Z.min (buf_count e + 1) BUF_SIZE /\
  buffer_ok (push_delta d e).
Proof.
  intros Hok Hk. split; [apply last_k_push; assumption|].
  split; [reflexivity|apply push_delta_ok; assumption].
Qed.

Lemma push_delta_appends_witness :
  last_k (push_delta 9 (locked_entry 5)) (2 + 1) = last_k (locked_entry 5) 2 ++ [9].
Proof.
  apply (push_delta_appends 9 (locked_entry 5) 2).
  - unfold buffer_ok. vm_compute. repeat split; discriminate.
  - vm_compute. split; [discriminate|reflexivity].
Defined.

(** X4: the remainder by a zero period is reached on exactly those accesses
    on which the fast path is not ready, an analysis is due, the best power
    does not exceed the threshold and the period, after the confidence
    check, is 0. *)
Theorem modulo_by_zero_exactly_when cfg delta addr mshr e :
  let e2 := confidence_check delta (count_access (push_delta delta e)) in
  entry_operate cfg delta addr mshr e = ModuloByZero <->
  fast_path_ready e2 = false /\ analysis_due e2 = true /\
  period e2 = 0 /\ Qle_bool (snd (detect e2)) (POWER_THRESHOLD cfg) = true.
Proof.
  intros e2. rewrite entry_operate_fault. cbv zeta. fold e2.
  assert (Hp : period (fourier_analysis cfg e2) = 0 <->
               period e2 = 0 /\ Qle_bool (snd (detect e2)) (POWER_THRESHOLD cfg) = true).
  { pose proof (detect_candidate e2) as Hc.
    assert (Hnz : fst (detect e2) <> 0).
    { revert Hc. generalize (fst (detect e2)). intros z Hc.
      unfold candidate_periods in Hc.
      repeat (apply elem_of_cons in Hc as [->|Hc]; [lia|]). inversion Hc. }
    destruct (fourier_analysis_lock cfg e2)
      as [(Ht & Hfa)|[(Ht & Hb & Hfp & _)|(Ht & Hb & Hfp & _)]].
    - rewrite Hfa. tauto.
    - rewrite Hfp, <- Hb. split; [contradiction|intros (_ & Ht'); congruence].
    - rewrite Hfp. split; [contradiction|intros (_ & Ht'); congruence]. }
  rewrite Hp. tauto.
Qed.

(** X5: an access on which the last four deltas are equal and nonzero
    goes straight to step 8: it never ends in the remainder by zero, and it
    leaves period, stability and pattern as the confidence check left
    them. *)
Theorem fast_path_skips_analysis cfg delta addr mshr e :
  let e2 := confidence_check delta (count_access (push_delta delta e)) in
  fast_path_ready e2 = true ->
  exists e' out,
    entry_operate cfg delta addr mshr e = Ok (e', out) /\
    period e' = period e2 /\ stability e' = stability e2 /\ pattern e' = pattern e2.
Proof.
  intros e2 Hf.
  pose proof (prefetch_keeps cfg (Some delta) addr mshr e2) as (_ & Hp & Hs & Hpat & _).
  exists (fst (prefetch cfg (Some delta) addr mshr e2)),
         (snd (prefetch cfg (Some delta) addr mshr e2)).
  split; [|auto].
  unfold entry_operate. cbv zeta. fold e2. rewrite Hf, <- surjective_pairing. reflexivity.
Qed.

Lemma fast_path_skips_analysis_witness :
  exists e' out,
    entry_operate example_config 4 64256 (Qmake 0 1) (stride_entry 1000 3) = Ok (e', out) /\
    period e' = 0.
Proof.
  destruct (fast_path_skips_analysis example_config 4 64256 (Qmake 0 1) (stride_entry 1000 3))
    as (e' & out & Hop & Hp & _).
  - vm_compute. reflexivity.
  - exists e', out. split; [exact Hop|]. rewrite Hp. reflexivity.
Defined.

(** X6: a request that is emitted is recorded for the next confidence
    check: the delta behind its target is pending, the confidence was at
    least 3, the fill level is L1 exactly when the confidence is at least 5
    and the MSHR occupancy is below one half, and the next access moves the
    confidence up by one (up to 7) if its delta is the predicted one and
    down by two (down to 0) if not. *)
Theorem request_is_recorded cfg delta addr mshr e e' r :
  entry_operate cfg delta addr mshr e = Ok (e', Some r) ->
  has_prediction e' = true /\
  pf_addr r = wrap_u64 (addr + last_prediction e' * BLOCK_SIZE cfg) /\
  CONFIDENCE_ISSUE <= confidence e' /\
  fill_this_level r = (CONFIDENCE_NEAR <=? confidence e') && negb (Qle_bool (1 # 2) mshr) /\
  forall d cl,
    confidence (confidence_check d (count_access (push_delta d (set_last_cl_addr cl e')))) =
    if d =? last_prediction e'
    then Z.min (confidence e' + 1) CONFIDENCE_MAX
    else Z.max (confidence e' - 2) 0.
Proof.
  intros H. apply entry_operate_cases in H. cbv zeta in H.
  assert (Hpf : exists pd ex, (e', Some r) = prefetch cfg pd addr mshr ex).
  { destruct H as [(_ & H)|[(_ & _ & _ & H)|(_ & _ & H)]]; eauto. }
  destruct Hpf as (pd & ex & Hpf). clear H.
  unfold prefetch in Hpf.
  destruct pd as [d0|]; [|discriminate].
  destruct (CONFIDENCE_ISSUE <=? confidence ex) eqn:Ec; [|discriminate].
  destruct (same_page cfg _ addr); [|discriminate].
  injection Hpf as -> ->.
  apply Z.leb_le in Ec.
  split; [reflexivity|]. split; [reflexivity|]. split; [exact Ec|]. split; [reflexivity|].
  intros d cl. rewrite confidence_check_value. reflexivity.
Qed.

Lemma request_is_recorded_witness :
  exists e' r,
    entry_operate example_config 4 64256 (Qmake 0 1) (stride_entry 1000 5) = Ok (e', Some r) /\
    has_prediction e' = true /\ fill_this_level r = true.
Proof.
  assert (Hr : exists e' r, entry_operate example_config 4 64256 (Qmake 0 1)
                              (stride_entry 1000 5) = Ok (e', Some r)).
  { vm_compute. eexists _, _. reflexivity. }
  destruct Hr as (e' & r & Hr). exists e', r. split; [exact Hr|].
  destruct (request_is_recorded _ _ _ _ _ _ _ Hr) as (Hh & _ & _ & Hl & _).
  split; [exact Hh|]. rewrite Hl. revert Hr. vm_compute. intros Hr.
  injection Hr as <- _. reflexivity.
Defined.

(** X15: the Goertzel routine rounds to [float] after every operation.  On
    the samples 357, 22 zeros, 358 with the coefficient -2.0 of period 2 the
    recurrence ends at s1 = -8210, s2 = 8211, whose squares and product are
    beyond 24 bits; the power comes out as -16, where the exact value of
    s1*s1 + s2*s2 - coeff*s1*s2 is 1. *)
Theorem goertzel_power_rounds :
  fold_left (goertzel_step (goertzel_coeff 2)) ([357] ++ replicate 22 0 ++ [358])
    (f32_of_Z 0, f32_of_Z 0) = (f32_of_Z (-8210), f32_of_Z 8211) /\
  goertzel_power ([357] ++ replicate 22 0 ++ [358]) (goertzel_coeff 2) = f32_of_Z (-16) /\
  Qeq (window_power ([357] ++ replicate 22 0 ++ [358]) 2) (Qmake (-16) 1) /\
  (-8210) * (-8210) + 8211 * 8211 - (-2) * (-8210) * 8211 = 1.
Proof.
  split; [|split; [|split]]; vm_compute; reflexivity.
Qed.
(** ** Further properties of the table *)

Lemma confidence_check_ip d e :
  ip (confidence_check d e) = ip e /\
  last_cl_addr (confidence_check d e) = last_cl_addr e.
Proof.
  unfold confidence_check. destruct (has_prediction e); [|split; reflexivity].
  destruct (_ =? 0); split; reflexivity.
Qed.

Lemma fourier_analysis_ip cfg e :
  ip (fourier_analysis cfg e) = ip e /\
  last_cl_addr (fourier_analysis cfg e) = last_cl_addr e.
Proof.
  unfold fourier_analysis. cbv zeta. destruct (Qle_bool _ _); [split; reflexivity|].
  destruct (_ =? period e); cbn [stability set_period];
    destruct (_ <=? _); split; reflexivity.
Qed.

(** What steps 5 to 8 leave of the entry that step 4 hands them. *)
Lemma entry_operate_frame cfg delta addr mshr e e' out :
  entry_operate cfg delta addr mshr e = Ok (e', out) ->
  delta_buf e' = delta_buf (push_delta delta e) /\
  buf_head e' = buf_head (push_delta delta e) /\
  buf_count e' = buf_count (push_delta delta e) /\
  ip e' = ip e /\ last_cl_addr e' = last_cl_addr e.
Proof.
  intros H. apply entry_operate_cases in H. cbv zeta in H.
  pose proof (confidence_check_keeps delta (count_access (push_delta delta e)))
    as (Cb & Ch & Cn & _).
  pose proof (confidence_check_ip delta (count_access (push_delta delta e))) as (Ci & Cl).
  revert H Cb Ch Cn Ci Cl.
  generalize (confidence_check delta (count_access (push_delta delta e))).
  intros e2 H Cb Ch Cn Ci Cl.
  cbn [delta_buf buf_head buf_count count_access set_accesses] in Cb, Ch, Cn.
  cbn [ip last_cl_addr count_access set_accesses push_delta set_buffer] in Ci, Cl.
  destruct H as [(_ & H)|[(_ & _ & _ & H)|(_ & _ & H)]].
  - pose proof (prefetch_keeps cfg (Some delta) addr mshr e2)
      as (_ & _ & _ & _ & Pb & Ph & Pn & _ & Pl & Pi).
    rewrite <- H in Pb, Ph, Pn, Pl, Pi. cbn [fst] in Pb, Ph, Pn, Pl, Pi.
    repeat split; congruence.
  - pose proof (fourier_analysis_keeps cfg e2) as (_ & _ & _ & Fb & Fh & Fn & _).
    pose proof (fourier_analysis_ip cfg e2) as (Fi & Fl).
    revert H Fb Fh Fn Fi Fl. generalize (fourier_analysis cfg e2).
    intros e3 H Fb Fh Fn Fi Fl.
    pose proof (prefetch_keeps cfg (locked_delta e3) addr mshr e3)
      as (_ & _ & _ & _ & Pb & Ph & Pn & _ & Pl & Pi).
    rewrite <- H in Pb, Ph, Pn, Pl, Pi. cbn [fst] in Pb, Ph, Pn, Pl, Pi.
    repeat split; congruence.
  - pose proof (prefetch_keeps cfg (locked_delta e2) addr mshr e2)
      as (_ & _ & _ & _ & Pb & Ph & Pn & _ & Pl & Pi).
    rewrite <- H in Pb, Ph, Pn, Pl, Pi. cbn [fst] in Pb, Ph, Pn, Pl, Pi.
    repeat split; congruence.
Qed.

Lemma wrap_i16_range z : - 2 ^ 15 <= wrap_i16 z < 2 ^ 15.
Proof. unfold wrap_i16. pose proof (Z.mod_pos_bound (z + 2 ^ 15) (2 ^ 16)). lia. Qed.

Lemma wrap_i16_small z : - 2 ^ 15 <= z < 2 ^ 15 -> wrap_i16 z = z.
Proof. intros H. unfold wrap_i16. rewrite Z.mod_small by lia. lia. Qed.

(** X7: the access of an IP that has an entry.  The entry stays under its
    key and takes the line address of the access; the newest delta in its
    buffer is the difference of the two line addresses as an [int16_t],
    which is the difference itself when it fits; the queue and the entries
    of the other keys are as before. *)
Theorem returning_ip_records_delta cfg addr i mshr st st' out e :
  table st !! ip_hash i = Some e -> buffer_ok e ->
  prefetcher_cache_operate cfg addr i mshr st = Ok (st', out) ->
  let cl := cl_addr_of cfg addr in
  exists e',
    table st' !! ip_hash i = Some e' /\
    ip e' = ip e /\ last_cl_addr e' = cl /\ buffer_ok e' /\
    last_k e' 1 = [wrap_i16 (cl - last_cl_addr e)] /\
    - 2 ^ 15 <= wrap_i16 (cl - last_cl_addr e) < 2 ^ 15 /\
    (- 2 ^ 15 <= cl - last_cl_addr e < 2 ^ 15 -> last_k e' 1 = [cl - last_cl_addr e]) /\
    fifo st' = fifo st /\
    forall k, k <> ip_hash i -> table st' !! k = table st !! k.
Proof.
  intros He Hok H cl. unfold prefetcher_cache_operate in H. cbv zeta in H.
  rewrite He in H. fold cl in H.
  destruct (entry_operate _ _ _ _ _) as [[e' o]|] eqn:E; [|discriminate].
  apply Ok_inj in H. injection H as <- <-.
  apply entry_operate_frame in E as (Eb & Eh & En & Ei & El).
  assert (Hok0 : buffer_ok (set_last_cl_addr cl e)) by exact Hok.
  pose proof (push_delta_ok (wrap_i16 (cl - last_cl_addr e)) _ Hok0) as Hok1.
  assert (Hl1 : last_k e' 1 = [wrap_i16 (cl - last_cl_addr e)]).
  { rewrite (last_k_ext (push_delta (wrap_i16 (cl - last_cl_addr e)) (set_last_cl_addr cl e)))
      by assumption.
    change 1 with (0 + 1).
    rewrite last_k_push by (unfold BUF_SIZE; auto; lia). reflexivity. }
  exists e'. cbn [table fifo].
  split; [apply lookup_insert_eq|]. split; [exact Ei|]. split; [exact El|].
  split.
  { destruct Hok1 as (H1 & H2 & H3). unfold buffer_ok. rewrite Eb, Eh, En. auto. }
  split; [exact Hl1|]. split; [apply wrap_i16_range|].
  split; [intros Hfit; rewrite Hl1, wrap_i16_small by exact Hfit; reflexivity|].
  split; [reflexivity|].
  intros k Hk. apply lookup_insert_ne. congruence.
Qed.

Lemma returning_ip_records_delta_witness :
  exists st' out e',
    prefetcher_cache_operate example_config 64256 77 (Qmake 0 1) (stride_state 1000 3)
    = Ok (st', out) /\
    table st' !! ip_hash 77 = Some e' /\ last_k e' 1 = [4].
Proof.
  assert (Hr : exists st' out, prefetcher_cache_operate example_config 64256 77 (Qmake 0 1)
                                 (stride_state 1000 3) = Ok (st', out)).
  { vm_compute. eexists _, _. reflexivity. }
  destruct Hr as (st' & out & Hr). exists st', out.
  destruct (returning_ip_records_delta example_config 64256 77 (Qmake 0 1)
              (stride_state 1000 3) st' out (stride_entry 1000 3))
    as (e' & Ht & _ & _ & _ & Hl & _).
  - vm_compute. reflexivity.
  - unfold buffer_ok. vm_compute. repeat split; discriminate.
  - exact Hr.
  - exists e'. split; [exact Hr|]. split; [exact Ht|exact Hl].
Defined.

Lemma entry_operate_cold cfg delta addr mshr e e' out :
  confidence e = 0 -> has_prediction e = false ->
  entry_operate cfg delta addr mshr e = Ok (e', out) ->
  out = None /\ confidence e' = 0 /\ has_prediction e' = false.
Proof.
  intros Hc Hh H. apply entry_operate_cases in H. cbv zeta in H.
  rewrite (confidence_check_skipped delta (count_access (push_delta delta e)) Hh) in H.
  assert (Hc1 : confidence (count_access (push_delta delta e)) < CONFIDENCE_ISSUE)
    by (cbn; rewrite Hc; reflexivity).
  destruct H as [(_ & H)|[(_ & _ & _ & H)|(_ & _ & H)]].
  - rewrite prefetch_withheld in H by (right; exact Hc1).
    injection H as -> ->. cbn. auto.
  - pose proof (fourier_analysis_keeps cfg (count_access (push_delta delta e))) as (Kc & Kh & _).
    revert H Kc Kh. generalize (fourier_analysis cfg (count_access (push_delta delta e))).
    intros e3 H Kc Kh.
    rewrite prefetch_withheld in H by (right; rewrite Kc; exact Hc1).
    injection H as -> ->. rewrite Kc, Kh. cbn. auto.
  - rewrite prefetch_withheld in H by (right; exact Hc1).
    injection H as -> ->. cbn. auto.
Qed.

Lemma operate_cold cfg addr i mshr st st' out :
  cold_table st ->
  prefetcher_cache_operate cfg addr i mshr st = Ok (st', out) ->
  out = None /\ cold_table st'.
Proof.
  intros Hcold H. unfold prefetcher_cache_operate in H. cbv zeta in H.
  destruct (table st !! ip_hash i) as [e|] eqn:He.
  - destruct (entry_operate _ _ _ _ _) as [[e' o]|] eqn:E; [|discriminate].
    apply Ok_inj in H. injection H as <- <-.
    destruct (Hcold _ _ He) as (Hc & Hh).
    apply entry_operate_cold in E as (-> & Hc' & Hh'); [|exact Hc|exact Hh].
    split; [reflexivity|]. intros k e0. cbn [table].
    destruct (decide (k = ip_hash i)) as [->|Hne].
    + rewrite lookup_insert_eq. intros [= <-]. auto.
    + rewrite lookup_insert_ne by congruence. apply Hcold.
  - apply Ok_inj in H. injection H as <- <-. split; [reflexivity|].
    intros k e0. unfold allocate. cbn [table].
    destruct (decide (k = ip_hash i)) as [->|Hne].
    + rewrite lookup_insert_eq. intros [= <-]. cbn. auto.
    + rewrite lookup_insert_ne by congruence.
      destruct (TABLE_SIZE <=? _); [|apply Hcold].
      unfold evict_oldest. destruct (fifo st) as [|k0 q]; [apply Hcold|]. cbn [table].
      intros Hl. apply lookup_delete_Some in Hl as (_ & Hl). eapply Hcold, Hl.
Qed.

(** X9: a table that starts empty never emits a request.  Its entries are
    allocated with confidence 0 and nothing pending; the confidence moves
    only when a prediction is pending, and a prediction is recorded only
    with a confidence of at least 3.  So on every run that ends, every
    access comes back without a request and every entry still has
    confidence 0 and nothing pending. *)
Theorem fresh_table_never_prefetches cfg tr st outs :
  run cfg tr empty_state = Ok (st, outs) ->
  Forall (fun o => o = None) outs /\
  forall k e, table st !! k = Some e -> confidence e = 0 /\ has_prediction e = false.
Proof.
  assert (Hgen : forall tr st0 st outs, cold_table st0 -> run cfg tr st0 = Ok (st, outs) ->
                   Forall (fun o => o = None) outs /\ cold_table st).
  { clear. induction tr as [|a tr IH]; intros st0 st outs Hcold H.
    - cbn in H. apply Ok_inj in H. injection H as <- <-. split; [constructor|exact Hcold].
    - cbn [run] in H.
      destruct (prefetcher_cache_operate _ _ _ _ _) as [[st1 o]|] eqn:E1; [|discriminate].
      destruct (run cfg tr st1) as [[st2 os]|] eqn:E2; [|discriminate].
      apply Ok_inj in H. injection H as <- <-.
      apply operate_cold in E1 as (-> & Hcold1); [|exact Hcold].
      destruct (IH _ _ _ Hcold1 E2) as (Hos & Hcold2).
      split; [constructor; [reflexivity|exact Hos]|exact Hcold2]. }
  intros H. apply (Hgen tr empty_state st outs); [|exact H].
  intros k e. cbn. rewrite lookup_empty. discriminate.
Qed.

Lemma fresh_table_never_prefetches_witness :
  exists st outs,
    run example_config (stream 77 1000 (replicate 8 4)) empty_state = Ok (st, outs) /\
    Forall (fun o => o = None) outs.
Proof.
  assert (Hr : exists st outs,
             run example_config (stream 77 1000 (replicate 8 4)) empty_state = Ok (st, outs)).
  { vm_compute. eexists _, _. reflexivity. }
  destruct Hr as (st & outs & Hr). exists st, outs. split; [exact Hr|].
  exact (proj1 (fresh_table_never_prefetches _ _ _ _ Hr)).
Defined.

Lemma allocate_entries_ok key cl st :
  entries_ok st -> entries_ok (allocate key cl st).
Proof.
  intros Hok k e. unfold allocate. cbn [table].
  destruct (decide (k = key)) as [->|Hne].
  - rewrite lookup_insert_eq. intros [= <-]. split; [reflexivity|].
    unfold buffer_ok. vm_compute. repeat split; discriminate.
  - rewrite lookup_insert_ne by congruence.
    destruct (TABLE_SIZE <=? _); [|apply Hok].
    unfold evict_oldest. destruct (fifo st) as [|k0 q]; [apply Hok|]. cbn [table].
    intros Hl. apply lookup_delete_Some in Hl as (_ & Hl). eapply Hok, Hl.
Qed.

Lemma operate_entries_ok cfg addr i mshr st st' out :
  entries_ok st ->
  prefetcher_cache_operate cfg addr i mshr st = Ok (st', out) ->
  entries_ok st'.
Proof.
  intros Hok H. unfold prefetcher_cache_operate in H. cbv zeta in H.
  destruct (table st !! ip_hash i) as [e|] eqn:He.
  - destruct (entry_operate _ _ _ _ _) as [[e' o]|] eqn:E; [|discriminate].
    apply Ok_inj in H. injection H as <- <-.
    destruct (Hok _ _ He) as (Hi & Hb).
    apply entry_operate_frame in E as (Eb & Eh & En & Ei & _).
    intros k e0. cbn [table].
    destruct (decide (k = ip_hash i)) as [->|Hne].
    + rewrite lookup_insert_eq. intros [= <-]. split; [rewrite Ei; exact Hi|].
      assert (Hb0 : buffer_ok (set_last_cl_addr (cl_addr_of cfg addr) e)) by exact Hb.
      pose proof (push_delta_ok (wrap_i16 (cl_addr_of cfg addr - last_cl_addr e)) _ Hb0)
        as (H1 & H2 & H3).
      unfold buffer_ok. rewrite Eb, Eh, En. auto.
    + rewrite lookup_insert_ne by congruence. apply Hok.
  - apply Ok_inj in H. injection H as <- <-. apply allocate_entries_ok, Hok.
Qed.

(** X10: on every run from the empty table that ends, the table and the
    queue hold the same keys, each key once in the queue; every entry is
    stored under the key in its own [ip] field; and every entry's buffer has
    24 slots, a head below 24 and a count of at most 24. *)
Theorem table_and_queue_agree cfg tr st outs :
  run cfg tr empty_state = Ok (st, outs) ->
  NoDup (fifo st) /\
  (forall k, k ∈ fifo st <-> is_Some (table st !! k)) /\
  size (table st) = length (fifo st) /\
  forall k e, table st !! k = Some e ->
    ip e = k /\ length (delta_buf e) = 24%nat /\
    0 <= buf_head e < 24 /\ 0 <= buf_count e <= 24.
Proof.
  intros H.
  destruct (run_ok _ _ _ _ _ empty_state_ok H) as (Hnd & Hdom & Hsz & _).
  split; [exact Hnd|]. split; [exact Hdom|]. split; [exact Hsz|].
  assert (Hgen : forall tr st0 st outs, entries_ok st0 -> run cfg tr st0 = Ok (st, outs) ->
                   entries_ok st).
  { clear. induction tr as [|a tr IH]; intros st0 st outs Hok H.
    - cbn in H. apply Ok_inj in H. injection H as <- <-. exact Hok.
    - cbn [run] in H.
      destruct (prefetcher_cache_operate _ _ _ _ _) as [[st1 o]|] eqn:E1; [|discriminate].
      destruct (run cfg tr st1) as [[st2 os]|] eqn:E2; [|discriminate].
      apply Ok_inj in H. injection H as <- <-.
      eapply IH; [|exact E2]. eapply operate_entries_ok; eauto. }
  intros k e He.
  assert (Hnil : entries_ok empty_state).
  { intros k0 e0. cbn. rewrite lookup_empty. discriminate. }
  destruct (Hgen tr empty_state st outs Hnil H k e He) as (Hi & Hb).
  split; [exact Hi|exact Hb].
Qed.

Lemma table_and_queue_agree_witness :
  exists st outs,
    run example_config (stream 77 1000 (replicate 8 4)) empty_state = Ok (st, outs) /\
    NoDup (fifo st).
Proof.
  assert (Hr : exists st outs,
             run example_config (stream 77 1000 (replicate 8 4)) empty_state = Ok (st, outs)).
  { vm_compute. eexists _, _. reflexivity. }
  destruct Hr as (st & outs & Hr). exists st, outs. split; [exact Hr|].
  exact (proj1 (table_and_queue_agree _ _ _ _ Hr)).
Defined.

(** X11: the queue after an access, on a table whose keys agree with its
    queue.  A key that is in the table leaves the queue as it is, however
    often and however recently it is accessed; a new key goes to the back,
    and the front of the queue leaves when the queue already holds 256
    keys. *)
Theorem queue_after_access cfg addr i mshr st st' out :
  table_ok st ->
  prefetcher_cache_operate cfg addr i mshr st = Ok (st', out) ->
  fifo st' =
    if decide (ip_hash i ∈ fifo st) then fifo st
    else if decide (length (fifo st) < 256)%nat
         then fifo st ++ [ip_hash i]
         else tail (fifo st) ++ [ip_hash i].
Proof. apply operate_fifo. Qed.

Lemma queue_after_access_witness :
  exists st' out,
    prefetcher_cache_operate example_config 0 78 (Qmake 0 1) (stride_state 1000 3)
    = Ok (st', out) /\
    fifo st' = [ip_hash 77; ip_hash 78].
Proof.
  assert (Hr : exists st' out, prefetcher_cache_operate example_config 0 78 (Qmake 0 1)
                                 (stride_state 1000 3) = Ok (st', out)).
  { vm_compute. eexists _, _. reflexivity. }
  destruct Hr as (st' & out & Hr). exists st', out. split; [exact Hr|].
  assert (Hok : table_ok (stride_state 1000 3)).
  { unfold table_ok, stride_state. cbn [fifo table]. split; [|split; [|split]].
    - apply NoDup_singleton.
    - intros k. rewrite list_elem_of_singleton. split.
      + intros ->. rewrite lookup_singleton_eq. eauto.
      + intros [e He]. apply lookup_singleton_Some in He as (He & _). congruence.
    - apply map_size_singleton.
    - vm_compute. lia. }
  rewrite (queue_after_access _ _ _ _ _ _ _ Hok Hr). reflexivity.
Defined.

(** X8: the first two accesses of an IP that has no entry.  The first one
    allocates an entry and emits nothing; the second one emits nothing
    either and leaves exactly one delta in the buffer, the difference of the
    two line addresses as an [int16_t]; the entry has the line address of
    the second access, no period and confidence 0. *)
Theorem first_two_accesses cfg a0 a1 i m0 m1 st :
  table st !! ip_hash i = None ->
  exists st1 st2 e,
    prefetcher_cache_operate cfg a0 i m0 st = Ok (st1, None) /\
    prefetcher_cache_operate cfg a1 i m1 st1 = Ok (st2, None) /\
    table st2 !! ip_hash i = Some e /\
    buf_count e = 1 /\
    last_k e 1 = [wrap_i16 (cl_addr_of cfg a1 - cl_addr_of cfg a0)] /\
    last_cl_addr e = cl_addr_of cfg a1 /\ period e = 0 /\ confidence e = 0.
Proof.
  intros Hnone.
  set (d := wrap_i16 (cl_addr_of cfg a1 - cl_addr_of cfg a0)).
  destruct (fed_idle cfg [d] 0 (new_entry (ip_hash i) (cl_addr_of cfg a1)) d a1 m1)
    as (e' & Hop & Hfed & Hp & _).
  { apply fed_new. }
  { reflexivity. }
  { left. vm_compute. discriminate. }
  exists (allocate (ip_hash i) (cl_addr_of cfg a0) st).
  exists {| table := <[ip_hash i := e']> (table (allocate (ip_hash i) (cl_addr_of cfg a0) st));
            fifo := fifo (allocate (ip_hash i) (cl_addr_of cfg a0) st) |}.
  exists e'.
  split; [apply operate_new, Hnone|].
  split.
  { unfold prefetcher_cache_operate. cbv zeta.
    assert (Hl : table (allocate (ip_hash i) (cl_addr_of cfg a0) st) !! ip_hash i
                 = Some (new_entry (ip_hash i) (cl_addr_of cfg a0))).
    { unfold allocate. cbn [table]. apply lookup_insert_eq. }
    rewrite Hl.
    change (set_last_cl_addr (cl_addr_of cfg a1) (new_entry (ip_hash i) (cl_addr_of cfg a0)))
      with (new_entry (ip_hash i) (cl_addr_of cfg a1)).
    change (last_cl_addr (new_entry (ip_hash i) (cl_addr_of cfg a0))) with (cl_addr_of cfg a0).
    fold d. rewrite Hop. reflexivity. }
  cbn [table]. split; [apply lookup_insert_eq|].
  destruct Hfed as (_ & Hc & _ & Hconf & _ & Hw).
  split; [rewrite Hc; reflexivity|].
  split; [apply (Hw 1%nat); lia|].
  apply entry_operate_frame in Hop as (_ & _ & _ & _ & Hl).
  split; [exact Hl|]. split; [rewrite Hp; reflexivity|exact Hconf].
Qed.

Lemma first_two_accesses_witness :
  exists st1 st2 e,
    prefetcher_cache_operate example_config 64000 5 (Qmake 0 1) empty_state = Ok (st1, None) /\
    prefetcher_cache_operate example_config 64448 5 (Qmake 0 1) st1 = Ok (st2, None) /\
    table st2 !! ip_hash 5 = Some e /\ last_k e 1 = [7].
Proof.
  destruct (first_two_accesses example_config 64000 64448 5 (Qmake 0 1) (Qmake 0 1) empty_state)
    as (st1 & st2 & e & H1 & H2 & H3 & _ & H4 & _).
  - reflexivity.
  - exists st1, st2, e. repeat split; assumption.
Defined.

Lemma lxor_below_pow2 a b n :
  0 <= n -> 0 <= a < 2 ^ n -> 0 <= b < 2 ^ n -> 0 <= Z.lxor a b < 2 ^ n.
Proof.
  intros Hn Ha Hb.
  assert (Hnn : 0 <= Z.lxor a b) by (apply Z.lxor_nonneg; lia).
  split; [exact Hnn|].
  destruct (Z.eq_dec (Z.lxor a b) 0) as [->|Hne]; [lia|].
  apply Z.log2_lt_pow2; [lia|].
  pose proof (Z.log2_lxor a b ltac:(lia) ltac:(lia)) as Hl.
  assert (Hla : a = 0 \/ Z.log2 a < n).
  { destruct (Z.eq_dec a 0); [left; assumption|right; apply Z.log2_lt_pow2; lia]. }
  assert (Hlb : b = 0 \/ Z.log2 b < n).
  { destruct (Z.eq_dec b 0); [left; assumption|right; apply Z.log2_lt_pow2; lia]. }
  destruct Hla as [->|Hla], Hlb as [->|Hlb].
  - rewrite Z.lxor_0_l in Hne. contradiction.
  - rewrite Z.lxor_0_l. exact Hlb.
  - rewrite Z.lxor_0_r. exact Hla.
  - lia.
Qed.

Lemma shiftr_below a k n : 0 <= k -> 0 <= a < 2 ^ n -> 0 <= Z.shiftr a k < 2 ^ n.
Proof.
  intros Hk Ha. rewrite Z.shiftr_div_pow2 by exact Hk.
  assert (Hp : 0 < 2 ^ k) by (apply Z.pow_pos_nonneg; lia).
  split; [apply Z.div_pos; lia|].
  apply Z.le_lt_trans with a; [|lia].
  apply Z.div_le_upper_bound; [exact Hp|]. nia.
Qed.

(** X12: the key of a 64-bit IP is again a 64-bit value, and two IPs with the
    same key are the same IP. *)
Theorem ip_hash_on_u64 i j :
  is_u64 i -> is_u64 j ->
  is_u64 (ip_hash i) /\ (ip_hash i = ip_hash j -> i = j).
Proof.
  intros Hi Hj. split.
  - unfold is_u64, ip_hash in *.
    apply lxor_below_pow2; [lia| |apply shiftr_below; lia].
    apply lxor_below_pow2; [lia|exact Hi|apply shiftr_below; lia].
  - destruct Hi, Hj. apply ip_hash_inj; assumption.
Qed.

Lemma ip_hash_on_u64_witness : is_u64 (ip_hash 77).
Proof.
  refine (proj1 (ip_hash_on_u64 77 78 _ _));
    unfold is_u64; vm_compute; split; [discriminate|reflexivity|discriminate|reflexivity].
Defined.
